(** * IsaProMe: the multi-key work-distribution engine

    A shallow embedding of the scheduler of [App.tsx] (the round-robin and
    cooldown generation: [startProcessing], [spawnWorker], [checkCompletion],
    the item handlers) and of the response handling of
    [services/geminiService.ts] ([generateMetadataForFile]).

    Conventions.
    - JavaScript strings are [string]s; the model covers the ASCII range,
      where [toLowerCase] only moves the letters A..Z.
    - [Date.now()] is a parameter [now : Z] (milliseconds) of every function
      that reads the clock.
    - [Set<string>] is [gset string], [Map<string, number>] is
      [gmap string Z], arrays are lists.
    - The event loop is a list of pending continuations ([Task]); one
      transition of [step] runs one continuation to its next suspension.
      [spawnWorker] is cut at its [await] and at its tail call, and the
      spawning loop of [startProcessing] leaves its calls in the loop, so the
      model may yield where the browser runs on: every state the program can
      be observed in is a state of the model.
    - Item identifiers are those of [uuidv4] (non-empty, never repeated) and
      the controls of the page are locked while [isProcessing] holds. *)

From Stdlib Require Import ZArith Lia Ascii String.
From stdpp Require Import base tactics option list gmap strings fin_maps fin_sets.

Local Open Scope string_scope.
Local Open Scope Z_scope.

#[local] Set Warnings "-register-all".

(** ** Strings *)

Module JsString.

(** [c.toLowerCase()] on one ASCII character. *)
Definition lowerAscii (c : ascii) : ascii :=
  let n := Ascii.nat_of_ascii c in
  if ((65 <=? n)%nat && (n <=? 90)%nat)%bool
  then Ascii.ascii_of_nat (n + 32)
  else c.

(** [s.toLowerCase()]. *)
Fixpoint toLowerCase (s : string) : string :=
  match s with
  | EmptyString => EmptyString
  | String c rest => String (lowerAscii c) (toLowerCase rest)
  end.

(** [s.startsWith(p)]. *)
Fixpoint startsWith (p s : string) : bool :=
  match p, s with
  | EmptyString, _ => true
  | String a p', String b s' => if Ascii.eqb a b then startsWith p' s' else false
  | String _ _, EmptyString => false
  end.

(** [s.includes(p)]: [p] occurs in [s] at some offset. *)
Fixpoint includes (s p : string) : bool :=
  if startsWith p s then true
  else match s with
       | EmptyString => false
       | String _ rest => includes rest p
       end.

(** [!s] for a string: only the empty string is falsy. *)
Definition falsy (s : string) : bool :=
  match s with EmptyString => true | _ => false end.

End JsString.

(** ** Error classification of the worker's catch block *)

(** [isKeyError] of [spawnWorker]: the lower-cased rendering of the error is
    searched for the six credential-exhaustion markers. *)
Definition isKeyError (errorMsg : string) : bool :=
  JsString.includes errorMsg "429" ||
  JsString.includes errorMsg "403" ||
  JsString.includes errorMsg "quota" ||
  JsString.includes errorMsg "timeout" ||
  JsString.includes errorMsg "fetch failed" ||
  JsString.includes errorMsg "overloaded".

(** [String(error)] for [new Error(message)]. *)
Definition errorToString (message : string) : string := "Error: " +:+ message.

(** The rejection produced by the 60 s guard of [generateMetadataForFile]. *)
Definition requestTimeoutMessage : string := "Request timed out (60s limit)".

(** ** JSON values and the generation result *)

(** A value produced by [JSON.parse]. Objects list their own properties,
    one entry per key. Numbers are tested for zero only. *)
Inductive JSON : Type :=
  | JNull
  | JBool (b : bool)
  | JNumber (z : Z)
  | JString (s : string)
  | JArray (items : list JSON)
  | JObject (props : list (string * JSON)).

(** A JavaScript value read out of the parsed reply: a JSON value or
    [undefined]. *)
Inductive JsValue : Type :=
  | Undefined
  | Val (j : JSON).

Fixpoint lookupProp (name : string) (props : list (string * JSON)) : JsValue :=
  match props with
  | [] => Undefined
  | (k, v) :: rest => if String.eqb k name then Val v else lookupProp name rest
  end.

(** [v.name] for a property name that no prototype defines ([en], [ind],
    [title], [keywords], [category]): [None] is the TypeError raised when
    [v] is [null] or [undefined]. *)
Definition getProp (v : JsValue) (name : string) : option JsValue :=
  match v with
  | Undefined | Val JNull => None
  | Val (JObject props) => Some (lookupProp name props)
  | Val _ => Some Undefined
  end.

(** [v?.name]. *)
Definition getPropOpt (v : JsValue) (name : string) : JsValue :=
  match getProp v name with
  | Some r => r
  | None => Undefined
  end.

(** Truthiness. *)
Definition truthy (v : JsValue) : bool :=
  match v with
  | Undefined | Val JNull => false
  | Val (JBool b) => b
  | Val (JNumber z) => negb (z =? 0)
  | Val (JString s) => negb (JsString.falsy s)
  | Val (JArray _) | Val (JObject _) => true
  end.

(** [v || ""]. *)
Definition orEmpty (v : JsValue) : JsValue :=
  if truthy v then v else Val (JString "").

Definition isString (v : JsValue) : bool :=
  match v with Val (JString _) => true | _ => false end.

Record LocalizedContent := { title : JsValue; keywords : JsValue }.

Record FileMetadata := {
  en : LocalizedContent;
  ind : LocalizedContent;
  category : JsValue
}.

Record Category := { cat_id : string; cat_en : string; cat_id_lang : string }.

Record GenerationResult := {
  res_metadata : FileMetadata;
  res_thumbnail : option string
}.

(** [a === b] against a string. *)
Definition strictEqString (s : string) (v : JsValue) : bool :=
  match v with
  | Val (JString t) => String.eqb s t
  | _ => false
  end.

Section Generation.

(** [constants.ts] is not part of the sources: the category table is a
    parameter. *)
Variable CATEGORIES : list Category.

(** [JSON.parse]: [None] when it throws. *)
Variable JSON_parse : string → option JSON.

(** [CATEGORIES.find(c => c.id === parsed.category) ? parsed.category : '8'] *)
Definition validCategory (parsedCategory : JsValue) : JsValue :=
  match List.find (λ c, strictEqString (cat_id c) parsedCategory) CATEGORIES with
  | Some _ => parsedCategory
  | None => Val (JString "8")
  end.

(** The object built from [parsed]; [None] when reading [parsed.category]
    throws. *)
Definition metadataOfParsed (parsed : JSON) : option FileMetadata :=
  match getProp (Val parsed) "category" with
  | None => None
  | Some cat =>
      let parsed_en := getPropOpt (Val parsed) "en" in
      let parsed_ind := getPropOpt (Val parsed) "ind" in
      Some {| en := {| title := orEmpty (getPropOpt parsed_en "title");
                       keywords := orEmpty (getPropOpt parsed_en "keywords") |};
              ind := {| title := orEmpty (getPropOpt parsed_ind "title");
                        keywords := orEmpty (getPropOpt parsed_ind "keywords") |};
              category := validCategory cat |}
  end.

(** The part of [generateMetadataForFile] after [Promise.race]:
    [responseText] is [response.text], [generatedThumbnail] the frame kept
    for videos. [None] is a rejection of the call. *)
Definition resultOfResponse (responseText : option string)
    (generatedThumbnail : option string) : option GenerationResult :=
  match responseText with
  | None => None
  | Some jsonText =>
      if JsString.falsy jsonText then None
      else match JSON_parse jsonText with
           | None => None
           | Some parsed =>
               match metadataOfParsed parsed with
               | None => None
               | Some m => Some {| res_metadata := m;
                                   res_thumbnail := generatedThumbnail |}
               end
           end
  end.

End Generation.

(** ** Work items *)

Inductive ProcessingStatus : Type :=
  | Pending
  | Processing
  | Completed
  | Failed.

#[global] Instance ProcessingStatus_eq_dec : EqDecision ProcessingStatus.
Proof. solve_decision. Defined.

Module FileItem.

(** The fields of [FileItem] the scheduler reads or writes ([file],
    [previewUrl] and [type] are only forwarded to the generation call). *)
Record t := mk {
  id : string;
  status : ProcessingStatus;
  metadata : FileMetadata;
  thumbnail : option string;
  error : option string
}.

Definition with_status (s : ProcessingStatus) (f : t) : t :=
  mk (id f) s (metadata f) (thumbnail f) (error f).

(** [{ ...f, status: Completed, metadata, thumbnail }] *)
Definition completed (r : GenerationResult) (f : t) : t :=
  mk (id f) Completed (res_metadata r) (res_thumbnail r) (error f).

(** [{ ...f, status: Failed, error: String(error) }] *)
Definition failed (e : string) (f : t) : t :=
  mk (id f) Failed (metadata f) (thumbnail f) (Some e).

(** [{ ...f, status: Pending, error: undefined }] *)
Definition reset (f : t) : t :=
  mk (id f) Pending (metadata f) (thumbnail f) None.

End FileItem.

(** [prev.map(f => f.id === fileId ? upd(f) : f)] *)
Definition updateFile (fileId : string) (upd : FileItem.t → FileItem.t)
    (fs : list FileItem.t) : list FileItem.t :=
  (λ f, if String.eqb (FileItem.id f) fileId then upd f else f) <$> fs.

(** ** Scheduler state *)

(** A continuation waiting in the event loop. *)
Inductive Task : Type :=
  | CallSpawnWorker (delay : Z) (workerId : nat)
      (** a call [spawnWorker(workerId)] that is due: the loop of
          [startProcessing] and the tail call of a worker (delay 0), or the
          throttle [setTimeout] (delay 1000) *)
  | AwaitGenerate (workerId : nat) (fileId : string) (selectedKey : string)
      (** a worker suspended at [await generateMetadataForFile(...)] *)
  | CompletionCheck (delay : Z)
      (** the [setTimeout] callback of [checkCompletion] *).

(** What the awaited generation call delivers: the result, or the rendering
    [String(error)] of the error that reaches the catch block (a rejection of
    the call or the synchronous "File not found in state"). *)
Inductive Outcome : Type :=
  | Resolved (r : GenerationResult)
  | Rejected (error : string).

Record Sched := mkSched {
  apiKeys : list string;
  files : list FileItem.t;
  processingRef : bool;          (** also the [isProcessing] state, set with it *)
  activeWorkersRef : Z;
  queueRef : list string;
  activeKeysRef : gset string;
  cooldownKeysRef : gmap string Z;
  nextKeyIdxRef : nat;
  tasks : list Task
}.

Definition set_apiKeys (v : list string) (st : Sched) : Sched :=
  mkSched v (files st) (processingRef st) (activeWorkersRef st) (queueRef st)
    (activeKeysRef st) (cooldownKeysRef st) (nextKeyIdxRef st) (tasks st).
Definition set_files (v : list FileItem.t) (st : Sched) : Sched :=
  mkSched (apiKeys st) v (processingRef st) (activeWorkersRef st) (queueRef st)
    (activeKeysRef st) (cooldownKeysRef st) (nextKeyIdxRef st) (tasks st).
Definition set_processing (v : bool) (st : Sched) : Sched :=
  mkSched (apiKeys st) (files st) v (activeWorkersRef st) (queueRef st)
    (activeKeysRef st) (cooldownKeysRef st) (nextKeyIdxRef st) (tasks st).
Definition set_activeWorkers (v : Z) (st : Sched) : Sched :=
  mkSched (apiKeys st) (files st) (processingRef st) v (queueRef st)
    (activeKeysRef st) (cooldownKeysRef st) (nextKeyIdxRef st) (tasks st).
Definition set_queue (v : list string) (st : Sched) : Sched :=
  mkSched (apiKeys st) (files st) (processingRef st) (activeWorkersRef st) v
    (activeKeysRef st) (cooldownKeysRef st) (nextKeyIdxRef st) (tasks st).
Definition set_activeKeys (v : gset string) (st : Sched) : Sched :=
  mkSched (apiKeys st) (files st) (processingRef st) (activeWorkersRef st) (queueRef st)
    v (cooldownKeysRef st) (nextKeyIdxRef st) (tasks st).
Definition set_cooldownKeys (v : gmap string Z) (st : Sched) : Sched :=
  mkSched (apiKeys st) (files st) (processingRef st) (activeWorkersRef st) (queueRef st)
    (activeKeysRef st) v (nextKeyIdxRef st) (tasks st).
Definition set_nextKeyIdx (v : nat) (st : Sched) : Sched :=
  mkSched (apiKeys st) (files st) (processingRef st) (activeWorkersRef st) (queueRef st)
    (activeKeysRef st) (cooldownKeysRef st) v (tasks st).
Definition set_tasks (v : list Task) (st : Sched) : Sched :=
  mkSched (apiKeys st) (files st) (processingRef st) (activeWorkersRef st) (queueRef st)
    (activeKeysRef st) (cooldownKeysRef st) (nextKeyIdxRef st) v.

Definition add_task (t : Task) (st : Sched) : Sched :=
  set_tasks (tasks st ++ [t]) st.

(** The continuation at position [i] leaves the event loop to run. *)
Definition take_task (i : nat) (st : Sched) : Sched :=
  set_tasks (delete i (tasks st)) st.

(** The state of a freshly mounted [App]. *)
Definition initial : Sched :=
  mkSched [] [] false 0 [] ∅ ∅ 0 [].

(** ** Credential selection (the head of [spawnWorker]) *)

(** "Clean up expired cooldowns": an entry is deleted when [now > expiry]. *)
Definition purgeExpired (now : Z) (cooling : gmap string Z) : gmap string Z :=
  filter (λ kv, ¬ (kv.2 < now)) cooling.

Definition isBusy (busy : gset string) (key : string) : bool :=
  bool_decide (key ∈ busy).

Definition isCooling (cooling : gmap string Z) (key : string) : bool :=
  bool_decide (is_Some (cooling !! key)).

(** The scan [for (let i = 0; i < totalKeys; i++)]: [offsets] are the values
    of [i] still to visit. The result is [selectedKey] and the new rotation
    pointer. [idx] is below [totalKeys = apiKeys.length], so the read
    [apiKeys[idx]] is always in range. *)
Fixpoint scanKeys (keys : list string) (busy : gset string) (cooling : gmap string Z)
    (ptr : nat) (offsets : list nat) : option (string * nat) :=
  match offsets with
  | [] => None
  | i :: rest =>
      let totalKeys := length keys in
      let idx := ((ptr + i) mod totalKeys)%nat in
      match keys !! idx with
      | Some keyCandidate =>
          if negb (isBusy busy keyCandidate) && negb (isCooling cooling keyCandidate)
          then Some (keyCandidate, ((idx + 1) mod totalKeys)%nat)
          else scanKeys keys busy cooling ptr rest
      | None => scanKeys keys busy cooling ptr rest
      end
  end.

(** Purge, then scan one full cycle from the rotation pointer. *)
Definition selectKey (now : Z) (st : Sched) : option (string * nat) :=
  scanKeys (apiKeys st) (activeKeysRef st)
    (purgeExpired now (cooldownKeysRef st)) (nextKeyIdxRef st)
    (seq 0 (length (apiKeys st))).

(** ** The worker *)

Definition checkCompletion (st : Sched) : Sched :=
  if activeWorkersRef st =? 0 then add_task (CompletionCheck 1000) st else st.

(** The callback armed by [checkCompletion]. *)
Definition completionCallback (st : Sched) : Sched :=
  if (length (queueRef st) =? 0)%nat && (activeWorkersRef st =? 0)
  then set_processing false st
  else st.

(** [spawnWorker(workerId)] from its entry to its first suspension. *)
Definition spawnWorker (workerId : nat) (now : Z) (st : Sched) : Sched :=
  if negb (processingRef st) then st
  else match queueRef st with
  | [] => checkCompletion st
  | fileId :: rest =>
      let st := set_queue rest st in
      if JsString.falsy fileId then checkCompletion st
      else
        let st := set_activeWorkers (activeWorkersRef st + 1) st in
        let selected := selectKey now st in
        let st := set_cooldownKeys (purgeExpired now (cooldownKeysRef st)) st in
        let st := match selected with
                  | Some (_, next) => set_nextKeyIdx next st
                  | None => st
                  end in
        match selected with
        | Some (selectedKey, _) =>
            if JsString.falsy selectedKey then
              let st := set_queue (fileId :: queueRef st) st in
              let st := set_activeWorkers (activeWorkersRef st - 1) st in
              add_task (CallSpawnWorker 1000 workerId) st
            else
              let st := set_activeKeys ({[selectedKey]} ∪ activeKeysRef st) st in
              let st := set_files
                          (updateFile fileId (FileItem.with_status Processing) (files st)) st in
              add_task (AwaitGenerate workerId fileId selectedKey) st
        | None =>
            let st := set_queue (fileId :: queueRef st) st in
            let st := set_activeWorkers (activeWorkersRef st - 1) st in
            add_task (CallSpawnWorker 1000 workerId) st
        end
  end.

(** [spawnWorker] from the return of the awaited call to its tail call
    [spawnWorker(workerId)], which is left in the event loop. *)
Definition resumeWorker (workerId : nat) (fileId selectedKey : string)
    (o : Outcome) (now : Z) (st : Sched) : Sched :=
  let st :=
    match o with
    | Resolved r =>
        let st := set_files (updateFile fileId (FileItem.completed r) (files st)) st in
        set_activeKeys (activeKeysRef st ∖ {[selectedKey]}) st
    | Rejected error =>
        let st := set_activeKeys (activeKeysRef st ∖ {[selectedKey]}) st in
        let errorMsg := JsString.toLowerCase error in
        if isKeyError errorMsg then
          let st := set_queue (queueRef st ++ [fileId]) st in
          let st := set_cooldownKeys (<[selectedKey := now + 30000]> (cooldownKeysRef st)) st in
          set_files (updateFile fileId (FileItem.with_status Pending) (files st)) st
        else
          set_files (updateFile fileId (FileItem.failed error) (files st)) st
    end in
  let st := set_activeWorkers (activeWorkersRef st - 1) st in
  add_task (CallSpawnWorker 0 workerId) st.

(** ** Starting a run and the item handlers *)

(** [f.status === Pending || f.status === Failed] *)
Definition isTarget (f : FileItem.t) : bool :=
  match FileItem.status f with
  | Pending | Failed => true
  | _ => false
  end.

(** "Set Failed back to Pending visually immediately". *)
Definition resetFailed (f : FileItem.t) : FileItem.t :=
  match FileItem.status f with
  | Failed => FileItem.reset f
  | _ => f
  end.

(** [Math.min(20, Math.max(2, apiKeys.length * 2))] *)
Definition maxConcurrency (keys : list string) : nat :=
  Nat.min 20 (Nat.max 2 (length keys * 2)).

(** The calls [spawnWorker(i + 1)] for [i = 0 .. n-1]. *)
Definition spawnCalls (n : nat) : list Task :=
  (λ i, CallSpawnWorker 0 (i + 1)%nat) <$> seq 0 n.

(** [startProcessing] up to its spawning loop: the queue is seeded and the
    run state reset. *)
Definition seedRun (st : Sched) : Sched :=
  let targetFiles := List.filter isTarget (files st) in
  let st := set_files (resetFailed <$> files st) st in
  let st := set_processing true st in
  let st := set_activeWorkers 0 st in
  let st := set_queue (FileItem.id <$> targetFiles) st in
  set_activeKeys ∅ st.

Definition startProcessing (st : Sched) : Sched :=
  if (length (apiKeys st) =? 0)%nat then st
  else if (length (List.filter isTarget (files st)) =? 0)%nat then st
  else
    let st := seedRun st in
    set_tasks (tasks st ++ spawnCalls (maxConcurrency (apiKeys st))) st.

(** The [onRetry] handler given to every card. *)
Definition onRetry (fileId : string) (st : Sched) : Sched :=
  set_files (updateFile fileId (FileItem.with_status Pending) (files st)) st.

Definition handleDelete (fileId : string) (st : Sched) : Sched :=
  set_files (List.filter (λ f, negb (String.eqb (FileItem.id f) fileId)) (files st)) st.

Definition handleClearAll (st : Sched) : Sched :=
  set_processing false (set_files [] st).

(** [processFiles]: the accepted files join the list as Pending items. *)
Definition processFiles (newFiles : list FileItem.t) (st : Sched) : Sched :=
  set_files (files st ++ newFiles) st.

(** [handleSetApiKeys] together with the effect on [apiKeys]: cooldowns are
    cleared and the rotation pointer reset. *)
Definition handleSetApiKeys (keys : list string) (st : Sched) : Sched :=
  set_nextKeyIdx 0 (set_cooldownKeys ∅ (set_apiKeys keys st)).

(** ** The event loop *)

Inductive Event : Type :=
  | EvStart
  | EvSpawn (i : nat) (now : Z)
  | EvSettle (i : nat) (o : Outcome) (now : Z)
  | EvCompletion (i : nat)
  | EvRetry (fileId : string)
  | EvDelete (fileId : string)
  | EvClearAll
  | EvUpload (newFiles : list FileItem.t)
  | EvSetApiKeys (keys : list string).

(** Identifiers come from [uuidv4]: non-empty and never issued twice. *)
Definition freshItems (newFiles : list FileItem.t) (st : Sched) : Prop :=
  NoDup (FileItem.id <$> (files st ++ newFiles)%list) ∧
  Forall (λ f, FileItem.id f ≠ "" ∧ FileItem.status f = Pending) newFiles.

(** One turn of the event loop. The controls of the page (generate, retry,
    delete, clear, upload, the key field) are disabled while [isProcessing]
    holds; the pending continuations may run in any order. *)
Inductive step : Event → Sched → Sched → Prop :=
  | step_start st :
      processingRef st = false →
      step EvStart st (startProcessing st)
  | step_spawn st i delay workerId now :
      tasks st !! i = Some (CallSpawnWorker delay workerId) →
      step (EvSpawn i now) st (spawnWorker workerId now (take_task i st))
  | step_settle st i workerId fileId key o now :
      tasks st !! i = Some (AwaitGenerate workerId fileId key) →
      step (EvSettle i o now) st (resumeWorker workerId fileId key o now (take_task i st))
  | step_completion st i delay :
      tasks st !! i = Some (CompletionCheck delay) →
      step (EvCompletion i) st (completionCallback (take_task i st))
  | step_retry st fileId :
      processingRef st = false →
      step (EvRetry fileId) st (onRetry fileId st)
  | step_delete st fileId :
      processingRef st = false →
      step (EvDelete fileId) st (handleDelete fileId st)
  | step_clear st :
      processingRef st = false →
      step EvClearAll st (handleClearAll st)
  | step_upload st newFiles :
      processingRef st = false →
      freshItems newFiles st →
      step (EvUpload newFiles) st (processFiles newFiles st)
  | step_keys st keys :
      processingRef st = false →
      step (EvSetApiKeys keys) st (handleSetApiKeys keys st).

Inductive reachable : Sched → Prop :=
  | reachable_initial : reachable initial
  | reachable_step ev st st' : reachable st → step ev st st' → reachable st'.

(** The items and credentials held by the workers suspended at the
    generation call. *)
Definition inFlight (ts : list Task) : list (string * string) :=
  omap (λ t, match t with
             | AwaitGenerate _ fileId key => Some (fileId, key)
             | _ => None
             end) ts.

Definition isAwait (t : Task) : bool :=
  match t with AwaitGenerate _ _ _ => true | _ => false end.

Definition inFlightIds (st : Sched) : list string := fst <$> inFlight (tasks st).
Definition inFlightKeys (st : Sched) : list string := snd <$> inFlight (tasks st).

(** ** Predicates used by the statements *)

(** A credential the scan may return: not held and not cooling. *)
Definition eligible (busy : gset string) (cooling : gmap string Z) (key : string) : Prop :=
  (key ∉ busy) ∧ cooling !! key = None.

(** The position read at step [i] of the scan. *)
Definition slot (keys : list string) (ptr i : nat) : nat :=
  ((ptr + i) mod length keys)%nat.

(** The identifiers [startProcessing] sweeps into the queue. *)
Definition targetIds (st : Sched) : list string :=
  FileItem.id <$> List.filter isTarget (files st).

(** [out] is what [v || ""] must be: [v] itself when truthy, the empty string
    otherwise; a string as soon as [v] is a string or falsy. *)
Definition defaulted (v out : JsValue) : Prop :=
  (truthy v = true → out = v) ∧
  (truthy v = false → out = Val (JString "")) ∧
  (isString v = true ∨ truthy v = false → isString out = true).

(** [v] is the identifier of an entry of the category table. *)
Definition knownCategory (cats : list Category) (v : JsValue) : Prop :=
  ∃ c, c ∈ cats ∧ v = Val (JString (cat_id c)).

(** A worker is processing [fileId] with [key]. *)
Definition holds (st : Sched) (fileId key : string) : Prop :=
  (fileId, key) ∈ inFlight (tasks st).


(** What [spawnWorker] leaves behind when it has popped [fileId] and found
    no usable credential. *)
Definition throttled (workerId : nat) (now : Z) (next : nat) (st : Sched) : Sched :=
  mkSched (apiKeys st) (files st) (processingRef st) (activeWorkersRef st + 1 - 1)
    (queueRef st) (activeKeysRef st) (purgeExpired now (cooldownKeysRef st)) next
    (tasks st ++ [CallSpawnWorker 1000 workerId]).

(** What it leaves behind when it has taken [fileId] with [key]. *)
Definition dispatched (workerId : nat) (now : Z) (fileId : string) (rest : list string)
    (key : string) (next : nat) (st : Sched) : Sched :=
  mkSched (apiKeys st) (updateFile fileId (FileItem.with_status Processing) (files st))
    (processingRef st) (activeWorkersRef st + 1) rest ({[key]} ∪ activeKeysRef st)
    (purgeExpired now (cooldownKeysRef st)) next
    (tasks st ++ [AwaitGenerate workerId fileId key]).

(** The facts every state of the event loop satisfies. *)
Record Inv (st : Sched) : Prop := {
  inv_ids_nodup : NoDup (FileItem.id <$> files st);
  inv_ids_nonempty : ∀ f, f ∈ files st → FileItem.id f ≠ "";
  inv_work_nodup : NoDup (queueRef st ++ inFlightIds st)%list;
  inv_work_known :
    ∀ x, x ∈ (queueRef st ++ inFlightIds st)%list → x ∈ FileItem.id <$> files st;
  inv_keys_nodup : NoDup (inFlightKeys st);
  inv_keys_busy : ∀ key, key ∈ inFlightKeys st → key ∈ activeKeysRef st;
  inv_counter : activeWorkersRef st = Z.of_nat (length (inFlight (tasks st)));
  inv_idle : processingRef st = false → queueRef st = [] ∧ inFlight (tasks st) = [];
  inv_processing :
    ∀ f, f ∈ files st → FileItem.status f = Processing → FileItem.id f ∈ inFlightIds st;
  inv_pending :
    processingRef st = true →
    ∀ f, f ∈ files st → FileItem.status f = Pending → FileItem.id f ∈ queueRef st;
  inv_grace : ∀ delay, CompletionCheck delay ∈ tasks st → delay = 1000
}.

(** ** Proof steps that recur *)

(** Membership in an empty list. *)
Ltac absurd_nil :=
  match goal with
  | H : _ ∈ [] |- _ => by apply elem_of_nil in H
  end.

(** The completion timers of a task list extended by one task. *)
Ltac grace_of HI :=
  let d := fresh "delay" in
  let H := fresh "Hd" in
  intros d [H | H%list_elem_of_singleton]%elem_of_app;
  [by apply (inv_grace _ HI) | first [discriminate H | congruence]].

Create HintDb sched.

(** ** Runs of the event loop *)

(** A sequence of turns, each allowed by [P] in the state it starts from. *)
Inductive run (P : Event → Sched → Prop) : Sched → Sched → Prop :=
  | run_done st : run P st st
  | run_more ev st st' st'' :
      P ev st → step ev st st' → run P st' st'' → run P st st''.

(** The turns of a run under way. *)
Definition whileProcessing (ev : Event) (st : Sched) : Prop :=
  processingRef st = true.

(** The turns that may follow a cooldown armed until [deadline]: workers
    read a clock not past [deadline], and the key list is not replaced. *)
Definition beforeDeadline (deadline : Z) (ev : Event) (st : Sched) : Prop :=
  match ev with
  | EvSpawn _ now => now ≤ deadline
  | EvSetApiKeys _ => False
  | _ => True
  end.



(** [key] is cooling until [expiry] and no worker holds it. *)
Definition coolingDown (key : string) (expiry : Z) (st : Sched) : Prop :=
  cooldownKeysRef st !! key = Some expiry ∧ (key ∉ inFlightKeys st).

(** ** Running the event loop *)

#[global] Instance freshItems_dec newFiles st : Decision (freshItems newFiles st).
Proof. unfold freshItems. apply _. Defined.

(** The turn [ev] as a function: [None] when [ev] cannot happen in [st]. *)
Definition exec (ev : Event) (st : Sched) : option Sched :=
  match ev with
  | EvStart =>
      if processingRef st then None else Some (startProcessing st)
  | EvSpawn i now =>
      match tasks st !! i with
      | Some (CallSpawnWorker _ workerId) => Some (spawnWorker workerId now (take_task i st))
      | _ => None
      end
  | EvSettle i o now =>
      match tasks st !! i with
      | Some (AwaitGenerate workerId fileId key) =>
          Some (resumeWorker workerId fileId key o now (take_task i st))
      | _ => None
      end
  | EvCompletion i =>
      match tasks st !! i with
      | Some (CompletionCheck _) => Some (completionCallback (take_task i st))
      | _ => None
      end
  | EvRetry fileId =>
      if processingRef st then None else Some (onRetry fileId st)
  | EvDelete fileId =>
      if processingRef st then None else Some (handleDelete fileId st)
  | EvClearAll =>
      if processingRef st then None else Some (handleClearAll st)
  | EvUpload newFiles =>
      if processingRef st then None
      else if decide (freshItems newFiles st) then Some (processFiles newFiles st)
      else None
  | EvSetApiKeys keys =>
      if processingRef st then None else Some (handleSetApiKeys keys st)
  end.

Fixpoint play (evs : list Event) (st : Sched) : option Sched :=
  match evs with
  | [] => Some st
  | ev :: rest =>
      match exec ev st with
      | Some st' => play rest st'
      | None => None
      end
  end.

(** The clock values read in a turn do not exceed [deadline]. *)
Definition readsClockUpTo (deadline : Z) (ev : Event) : Prop :=
  match ev with
  | EvSpawn _ now | EvSettle _ _ now => now ≤ deadline
  | _ => True
  end.

(** ** Small sessions *)

Module Scenario.

(** The metadata of an item that has not been processed. *)
Definition blank : FileMetadata :=
  {| en := {| title := Val (JString ""); keywords := Val (JString "") |};
     ind := {| title := Val (JString ""); keywords := Val (JString "") |};
     category := Val (JString "") |}.

Definition item (fileId : string) : FileItem.t :=
  FileItem.mk fileId Pending blank None None.

Definition answer : GenerationResult :=
  {| res_metadata :=
       {| en := {| title := Val (JString "Red kite"); keywords := Val (JString "bird, sky") |};
          ind := {| title := Val (JString "Elang"); keywords := Val (JString "burung, langit") |};
          category := Val (JString "1") |};
     res_thumbnail := None |}.

(** Two items, one credential: worker 1 takes "a", worker 2 finds the
    credential busy, then the call of worker 1 fails with a 429. *)
Definition keyed : Sched := handleSetApiKeys ["k1"] initial.
Definition loaded : Sched := processFiles [item "a"; item "b"] keyed.
Definition started : Sched := startProcessing loaded.
Definition taken : Sched := spawnWorker 1 100 (take_task 0 started).
Definition waiting : Sched := spawnWorker 2 100 (take_task 0 taken).
Definition limited : Sched :=
  resumeWorker 1 "a" "k1" (Rejected "Error: 429 Too Many Requests") 200
    (take_task 0 waiting).

(** One item, one credential, a successful call, then the completion
    timer. *)
Definition single : Sched := processFiles [item "a"] keyed.
Definition single_started : Sched := startProcessing single.
Definition single_taken : Sched := spawnWorker 1 100 (take_task 0 single_started).
Definition single_done : Sched :=
  resumeWorker 1 "a" "k1" (Resolved answer) 900 (take_task 1 single_taken).
Definition single_idle : Sched := spawnWorker 2 950 (take_task 0 single_done).
Definition single_finished : Sched := completionCallback (take_task 1 single_idle).

(** Two credentials: the call on "k1" fails with a 429 at time 200, the
    item is finished on "k2" and the run ends; the key list is then
    entered again, a second item uploaded and a new run started at
    time 5000. *)
Definition toFailure : list Event :=
  [EvSetApiKeys ["k1"; "k2"]; EvUpload [item "a"]; EvStart;
   EvSpawn 0 100; EvSpawn 0 100; EvSpawn 0 100; EvSpawn 0 100].

Definition afterFailure : list Event :=
  [EvSpawn 0 210; EvSettle 0 (Resolved answer) 900; EvSpawn 0 910; EvCompletion 0;
   EvSetApiKeys ["k1"; "k2"]; EvUpload [item "b"]; EvStart; EvSpawn 0 5000].

Definition beforeFailure : Sched :=
  default initial (play toFailure initial).

Definition failed429 : Sched :=
  resumeWorker 1 "a" "k1" (Rejected "Error: 429 Too Many Requests") 200
    (take_task 0 beforeFailure).

Definition restarted : Sched :=
  default initial (play afterFailure failed429).


(** Reply texts. [quoted s] is [s] between double quotes. *)
Definition quoted (s : string) : string :=
  String (Ascii.ascii_of_nat 34) (s +:+ String (Ascii.ascii_of_nat 34) "").

Definition member (name value : string) : string := quoted name +:+ ":" +:+ value.

(** [{"en":{"title":5,"keywords":"k"},"ind":{"title":"t","keywords":"k"},"category":"1"}] *)
Definition numericTitleText : string :=
  "{" +:+ member "en" ("{" +:+ member "title" "5" +:+ "," +:+
                        member "keywords" (quoted "k") +:+ "}") +:+ "," +:+
  member "ind" ("{" +:+ member "title" (quoted "t") +:+ "," +:+
                member "keywords" (quoted "k") +:+ "}") +:+ "," +:+
  member "category" (quoted "1") +:+ "}".

Definition numericTitleValue : JSON :=
  JObject [("en", JObject [("title", JNumber 5); ("keywords", JString "k")]);
           ("ind", JObject [("title", JString "t"); ("keywords", JString "k")]);
           ("category", JString "1")].

(** [{"en":{"title":"Red kite"},"category":"99"}] *)
Definition sparseText : string :=
  "{" +:+ member "en" ("{" +:+ member "title" (quoted "Red kite") +:+ "}") +:+ "," +:+
  member "category" (quoted "99") +:+ "}".

Definition sparseValue : JSON :=
  JObject [("en", JObject [("title", JString "Red kite")]);
           ("category", JString "99")].

(** [JSON.parse] on the one text [text], whose value is [value]. *)
Definition parseOnly (text : string) (value : JSON) (s : string) : option JSON :=
  if String.eqb s text then Some value else None.

Definition categories : list Category :=
  [{| cat_id := "1"; cat_en := "Animals"; cat_id_lang := "Hewan" |}].

End Scenario.

(** * Further parts of the application *)

(** ** The scheduler, continued *)

(** The worker numbers handed out by the spawning loop of [startProcessing]. *)
Definition workerIds (st : Sched) : list nat :=
  seq 1 (maxConcurrency (apiKeys st)).

(** What the credential pool keeps true: the rotation pointer is a position
    of the key list (or 0 when the list is empty), and every credential held
    by a worker is one of the list. *)
Record PoolInv (st : Sched) : Prop := {
  pool_pointer : nextKeyIdxRef st = 0%nat ∨ (nextKeyIdxRef st < length (apiKeys st))%nat;
  pool_held : ∀ key, key ∈ inFlightKeys st → key ∈ apiKeys st
}.


(** The six substrings the catch block of [spawnWorker] looks for. *)
Definition keyErrorMarkers : list string :=
  ["429"; "403"; "quota"; "timeout"; "fetch failed"; "overloaded"].

(** Two credentials, first scan; then the pointer past "k1" with "k2" busy. *)
Definition twoKeys : Sched := handleSetApiKeys ["k1"; "k2"] initial.
Definition twoKeysSecondBusy : Sched :=
  set_nextKeyIdx 1 (set_activeKeys {["k2"]} twoKeys).

(** ** The key field ([ApiKeyPanel]) *)

Module KeyPanel.

(** The separators of [/[\n,]+/]. *)
Definition isKeySeparator (c : ascii) : bool :=
  (Ascii.eqb c (Ascii.ascii_of_nat 10) || Ascii.eqb c ",")%bool.

(** [text.split(/[\n,]+/)]: [cur] is the piece being read, [inRun] tells
    that the previous character was a separator. *)
Fixpoint splitGo (cur : string) (inRun : bool) (s : string) : list string :=
  match s with
  | EmptyString => [cur]
  | String c rest =>
      if isKeySeparator c then
        if inRun then splitGo cur true rest
        else cur :: splitGo "" true rest
      else splitGo (cur +:+ String c "") false rest
  end.

Definition splitRuns (text : string) : list string := splitGo "" false text.

(** [s.trimStart()] and [s.trimEnd()] on the ASCII white space. *)
Fixpoint trimStart (s : string) : string :=
  match s with
  | EmptyString => EmptyString
  | String c rest => if Ascii.is_space c then trimStart rest else s
  end.

Fixpoint trimEnd (s : string) : string :=
  match s with
  | EmptyString => EmptyString
  | String c rest =>
      match trimEnd rest with
      | EmptyString => if Ascii.is_space c then EmptyString else String c EmptyString
      | t => String c t
      end
  end.

(** [s.trim()] *)
Definition trim (s : string) : string := trimEnd (trimStart s).

(** [text.split(/[\n,]+/).map(k => k.trim()).filter(k => k.length > 0)] *)
Definition parseKeys (text : string) : list string :=
  List.filter (λ k, negb (String.length k =? 0)%nat) (trim <$> splitRuns text).

(** [handleChange]: the parsed list goes to [setApiKeys]. *)
Definition handleChange (text : string) (st : Sched) : Sched :=
  handleSetApiKeys (parseKeys text) st.

(** [apiKeys.join('\n')], the text the field is filled with. *)
Definition joinLines (keys : list string) : string :=
  String.concat (String (Ascii.ascii_of_nat 10) "") keys.

(** No character of [s] is a separator. *)
Fixpoint noSeparator (s : string) : bool :=
  match s with
  | EmptyString => true
  | String c rest => negb (isKeySeparator c) && noSeparator rest
  end.

(** A key as the panel produces it. *)
Definition clean (k : string) : Prop :=
  k ≠ "" ∧ trim k = k ∧ noSeparator k = true.

End KeyPanel.

(** ** The settings form ([MetadataSettings]) *)

Inductive FileType : Type :=
  | Image
  | Video
  | Vector.

#[global] Instance FileType_eq_dec : EqDecision FileType.
Proof. solve_decision. Defined.

Record AppSettings := mkSettings {
  customTitle : string;
  customKeyword : string;
  slideTitle : Z;
  slideKeyword : Z;
  selectedFileType : FileType;
  csvFilename : string
}.

(** The settings [App] starts with. *)
Definition initialSettings : AppSettings :=
  mkSettings "" "" 50 40 Image "".

Module ParseInt.

(** The value of [c] as a digit in the given radix. *)
Definition digitValue (radix : Z) (c : ascii) : option Z :=
  let n := Z.of_nat (Ascii.nat_of_ascii c) in
  let v := if (48 <=? n) && (n <=? 57) then Some (n - 48)
           else if (97 <=? n) && (n <=? 102) then Some (n - 87)
           else if (65 <=? n) && (n <=? 70) then Some (n - 55)
           else None in
  match v with
  | Some d => if d <? radix then Some d else None
  | None => None
  end.

(** The longest prefix of digits, read in [radix]; [None] when there is no
    digit. *)
Fixpoint digits (radix : Z) (acc : option Z) (s : string) : option Z :=
  match s with
  | EmptyString => acc
  | String c rest =>
      match digitValue radix c with
      | Some d => digits radix (Some (radix * default 0 acc + d)) rest
      | None => acc
      end
  end.

(** [parseInt(s)] without a radix: leading white space is skipped, a sign
    is read, a prefix [0x] or [0X] selects base 16; [None] is [NaN]. The
    result is exact (the model does not round to a double). *)
Definition parseInt (s : string) : option Z :=
  let s := KeyPanel.trimStart s in
  let '(sign, s) :=
    match s with
    | String "-" rest => (-1, rest)
    | String "+" rest => (1, rest)
    | _ => (1, s)
    end in
  let '(radix, s) :=
    match s with
    | String "0" (String "x" rest) | String "0" (String "X" rest) => (16, rest)
    | _ => (10, s)
    end in
  (λ n, sign * n) <$> digits radix None s.

End ParseInt.

Inductive NumberField : Type :=
  | SlideTitle
  | SlideKeyword.

(** The text fields [handleChange] is called with. *)
Inductive TextField : Type :=
  | CustomTitle
  | CustomKeyword
  | CsvFilename.

(** [handleNumberChange(field, value)] *)
Definition handleNumberChange (field : NumberField) (value : string)
    (settings : AppSettings) : AppSettings :=
  let num := match ParseInt.parseInt value with
             | Some n => n
             | None => 0          (** [isNaN(num)] *)
             end in
  match field with
  | SlideTitle =>
      let num := if 100 <? num then 100 else num in
      let num := if num <? 0 then 0 else num in
      mkSettings (customTitle settings) (customKeyword settings) num
        (slideKeyword settings) (selectedFileType settings) (csvFilename settings)
  | SlideKeyword =>
      let num := if 50 <? num then 50 else num in
      let num := if num <? 0 then 0 else num in
      mkSettings (customTitle settings) (customKeyword settings) (slideTitle settings)
        num (selectedFileType settings) (csvFilename settings)
  end.

(** [handleChange(field, value)] of the settings form. *)
Definition handleTextChange (field : TextField) (value : string)
    (settings : AppSettings) : AppSettings :=
  match field with
  | CustomTitle =>
      mkSettings value (customKeyword settings) (slideTitle settings)
        (slideKeyword settings) (selectedFileType settings) (csvFilename settings)
  | CustomKeyword =>
      mkSettings (customTitle settings) value (slideTitle settings)
        (slideKeyword settings) (selectedFileType settings) (csvFilename settings)
  | CsvFilename =>
      mkSettings (customTitle settings) (customKeyword settings) (slideTitle settings)
        (slideKeyword settings) (selectedFileType settings) value
  end.

(** [handleTypeChange(type)]: ignored during processing. *)
Definition handleTypeChange (isProcessing : bool) (type : FileType)
    (settings : AppSettings) : AppSettings :=
  if isProcessing then settings
  else mkSettings (customTitle settings) (customKeyword settings) (slideTitle settings)
         (slideKeyword settings) type (csvFilename settings).

(** What the user does to the form. *)
Inductive SettingsEvent : Type :=
  | TypeNumber (field : NumberField) (value : string)
  | TypeText (field : TextField) (value : string)
  | PickType (isProcessing : bool) (type : FileType).

Definition applySettingsEvent (settings : AppSettings) (ev : SettingsEvent) : AppSettings :=
  match ev with
  | TypeNumber field value => handleNumberChange field value settings
  | TypeText field value => handleTextChange field value settings
  | PickType isProcessing type => handleTypeChange isProcessing type settings
  end.

Definition editSettings (evs : list SettingsEvent) : AppSettings :=
  foldl applySettingsEvent initialSettings evs.

Definition lengthsInRange (settings : AppSettings) : Prop :=
  0 ≤ slideTitle settings ≤ 100 ∧ 0 ≤ slideKeyword settings ≤ 50.

(** ** The translation service ([translateMetadataContent]) *)

(** What [ai.models.generateContent] delivers to the translation: a
    rejection, or a response whose [text] may be missing. *)
Inductive TranslateReply : Type :=
  | CallRejected
  | Replied (text : option string).

(** [a || b] *)
Definition jsOr (a b : JsValue) : JsValue := if truthy a then a else b.

Section Translation.

Variable JSON_parse : string → option JSON.

(** [translateMetadataContent(content, sourceLang, apiKey)]: every failure
    inside the [try] is caught and answered with [content]. *)
Definition translateMetadataContent (content : LocalizedContent)
    (reply : TranslateReply) : LocalizedContent :=
  match reply with
  | CallRejected => content
  | Replied text =>
      let jsonText :=
        match text with
        | Some s => if JsString.falsy s then "{}" else s
        | None => "{}"
        end in
      match JSON_parse jsonText with
      | None => content
      | Some json =>
          match getProp (Val json) "title", getProp (Val json) "keywords" with
          | Some t, Some k =>
              {| title := jsOr t (title content);
                 keywords := jsOr k (keywords content) |}
          | _, _ => content
          end
      end
  end.

End Translation.

(** The generation result for a reply that holds no object. *)
Definition blankResult : FileMetadata :=
  {| en := {| title := Val (JString ""); keywords := Val (JString "") |};
     ind := {| title := Val (JString ""); keywords := Val (JString "") |};
     category := Val (JString "8") |}.

Definition isObject (j : JSON) : bool :=
  match j with JObject _ => true | _ => false end.

(** ** Editing metadata ([handleUpdateMetadata], [toggleEdit]) *)

Inductive Language : Type :=
  | ENG
  | IND.

Inductive MetaField : Type :=
  | FieldTitle
  | FieldKeywords
  | FieldCategory.

(** [{ ...content, [field]: value }] for the fields of a language slot. *)
Definition setContentField (field : MetaField) (value : string)
    (content : LocalizedContent) : LocalizedContent :=
  match field with
  | FieldTitle => {| title := Val (JString value); keywords := keywords content |}
  | FieldKeywords => {| title := title content; keywords := Val (JString value) |}
  | FieldCategory => content
  end.

(** The slot of the language being edited, and the other one. *)
Definition slotOf (language : Language) (m : FileMetadata) : LocalizedContent :=
  match language with ENG => en m | IND => ind m end.

Definition otherSlotOf (language : Language) (m : FileMetadata) : LocalizedContent :=
  match language with ENG => ind m | IND => en m end.

(** [newMeta] of the optimistic update. *)
Definition editMeta (field : MetaField) (value : string) (language : Language)
    (m : FileMetadata) : FileMetadata :=
  match field with
  | FieldCategory => {| en := en m; ind := ind m; category := Val (JString value) |}
  | _ =>
      match language with
      | ENG => {| en := setContentField field value (en m); ind := ind m;
                  category := category m |}
      | IND => {| en := en m; ind := setContentField field value (ind m);
                  category := category m |}
      end
  end.

(** [{ ...f, metadata: newMeta }] *)
Definition withMetadata (m : FileMetadata) (f : FileItem.t) : FileItem.t :=
  FileItem.mk (FileItem.id f) (FileItem.status f) m (FileItem.thumbnail f)
    (FileItem.error f).

(** Step 1 of [handleUpdateMetadata]: the immediate local update. *)
Definition applyEdit (fileId : string) (field : MetaField) (value : string)
    (language : Language) (fs : list FileItem.t) : list FileItem.t :=
  updateFile fileId (λ f, withMetadata (editMeta field value language (FileItem.metadata f)) f) fs.

(** Step 2: the content sent to [translateMetadataContent], read from
    [snapshot], the item list of the render the handler belongs to. [None]
    when no translation is requested. *)
Definition translationRequest (snapshot : list FileItem.t) (keys : list string)
    (fileId : string) (field : MetaField) (value : string) (language : Language)
    : option LocalizedContent :=
  match field with
  | FieldCategory => None
  | _ =>
      match List.find (λ f, String.eqb (FileItem.id f) fileId) snapshot with
      | None => None
      | Some file =>
          if (length keys =? 0)%nat then None
          else Some (setContentField field value (slotOf language (FileItem.metadata file)))
      end
  end.

(** The update made when the translation arrives: the other language slot
    is replaced by [translated]. *)
Definition applySync (fileId : string) (language : Language)
    (translated : LocalizedContent) (fs : list FileItem.t) : list FileItem.t :=
  updateFile fileId
    (λ f, let m := FileItem.metadata f in
          withMetadata
            match language with
            | ENG => {| en := en m; ind := translated; category := category m |}
            | IND => {| en := translated; ind := ind m; category := category m |}
            end f) fs.

(** The calls of [onUpdate] made by [toggleEdit] when an edit is saved. *)
Definition saveCalls (item : FileItem.t) (language : Language)
    (editTitle editKeywords editCategory : string) : list (MetaField * string) :=
  let m := FileItem.metadata item in
  (if strictEqString editTitle (title (slotOf language m)) then []
   else [(FieldTitle, editTitle)]) ++
  (if strictEqString editKeywords (keywords (slotOf language m)) then []
   else [(FieldKeywords, editKeywords)]) ++
  (if strictEqString editCategory (category m) then []
   else [(FieldCategory, editCategory)]).

(** The local updates of one save, applied in call order. *)
Definition applySave (fileId : string) (language : Language)
    (calls : list (MetaField * string)) (fs : list FileItem.t) : list FileItem.t :=
  foldl (λ acc call, applyEdit fileId call.1 call.2 language acc) fs calls.

(** The translation requests of one save: every call reads the same
    snapshot. *)
Definition saveRequests (snapshot : list FileItem.t) (keys : list string)
    (fileId : string) (language : Language) (calls : list (MetaField * string))
    : list LocalizedContent :=
  omap (λ call, translationRequest snapshot keys fileId call.1 call.2 language) calls.

(** ** The display language ([handleToggleLanguage], [getLanguage]) *)

(** [prev[id] === 'IND' ? 'ENG' : 'IND'] *)
Definition handleToggleLanguage (fileId : string) (fileLanguages : gmap string Language)
    : gmap string Language :=
  <[fileId := match fileLanguages !! fileId with
              | Some IND => ENG
              | _ => IND
              end]> fileLanguages.

(** [fileLanguages[id] || 'ENG'] *)
Definition getLanguage (fileId : string) (fileLanguages : gmap string Language) : Language :=
  default ENG (fileLanguages !! fileId).

Definition otherLanguage (language : Language) : Language :=
  match language with ENG => IND | IND => ENG end.

(** ** Helpers ([utils/helpers]) *)

(** [getCategoryName]: an identifier the table does not know is returned
    as it is. *)
Definition getCategoryName (CATEGORIES : list Category) (id : JsValue)
    (lang : Language) : JsValue :=
  match List.find (λ c, strictEqString (cat_id c) id) CATEGORIES with
  | None => id
  | Some cat => Val (JString match lang with
                             | ENG => cat_en cat
                             | IND => cat_id_lang cat
                             end)
  end.


Definition quoteChar : ascii := Ascii.ascii_of_nat 34.

(** The [replace] of the rows: every quote character is doubled. *)
Fixpoint escapeQuotes (s : string) : string :=
  match s with
  | EmptyString => EmptyString
  | String c rest =>
      if Ascii.eqb c quoteChar
      then String quoteChar (String quoteChar (escapeQuotes rest))
      else String c (escapeQuotes rest)
  end.

(** A quoted cell of a row; [None] when [.replace] is not a function of the
    value, which makes [downloadCSV] throw. *)
Definition csvField (v : JsValue) : option string :=
  match v with
  | Val (JString s) => Some (String quoteChar (escapeQuotes s +:+ String quoteChar ""))
  | _ => None
  end.

(** The number of quote characters of [s]. *)
Fixpoint countQuotes (s : string) : nat :=
  match s with
  | EmptyString => 0
  | String c rest => ((if Ascii.eqb c quoteChar then 1 else 0) + countQuotes rest)%nat
  end.

(** ** The counters of the page *)

Definition hasStatus (s : ProcessingStatus) (f : FileItem.t) : bool :=
  match FileItem.status f, s with
  | Pending, Pending | Processing, Processing
  | Completed, Completed | Failed, Failed => true
  | _, _ => false
  end.

(** [files.filter(f => f.status === s).length] *)
Definition countStatus (s : ProcessingStatus) (fs : list FileItem.t) : nat :=
  length (List.filter (hasStatus s) fs).

(** [!isProcessing && (pendingCount > 0 || failedCount > 0)] *)
Definition canGenerate (isProcessing : bool) (fs : list FileItem.t) : bool :=
  (negb isProcessing &&
   ((0 <? countStatus Pending fs)%nat || (0 <? countStatus Failed fs)%nat))%bool.

(** ** Progress of a run *)




(** Every credential marked busy is held by a worker in flight. *)
Definition NoLeak (st : Sched) : Prop :=
  ∀ key, key ∈ activeKeysRef st → key ∈ inFlightKeys st.

(** ** The upload filter ([processFiles]) *)

(** The two fields of a [File] the filter reads. *)
Record UploadedFile := { file_name : string; file_type : string }.

(** [s.endsWith(suffix)]: some tail of [s] is [suffix]. *)
Fixpoint endsWith (s suffix : string) : bool :=
  (String.eqb s suffix ||
   match s with
   | EmptyString => false
   | String _ rest => endsWith rest suffix
   end)%bool.

(** The predicate of [Array.from(fileList).filter]. *)
Definition acceptsFile (selectedFileType : FileType) (file : UploadedFile) : bool :=
  match selectedFileType with
  | Image => JsString.startsWith "image/" (file_type file)
  | Video => JsString.startsWith "video/" (file_type file)
  | Vector =>
      (JsString.startsWith "image/" (file_type file) ||
       endsWith (file_name file) ".eps" ||
       endsWith (file_name file) ".ai" ||
       String.eqb (file_type file) "application/pdf")%bool
  end.

Definition acceptedFiles (selectedFileType : FileType) (fileList : list UploadedFile)
    : list UploadedFile :=
  List.filter (acceptsFile selectedFileType) fileList.

(** * Properties *)

(** ** Strings *)

Lemma falsy_spec s : JsString.falsy s = true ↔ s = "".
Proof. destruct s; simpl; split; congruence. Qed.

Lemma falsy_false s : JsString.falsy s = false ↔ s ≠ "".
Proof. destruct s; simpl; split; congruence. Qed.

(** ** Credential selection *)

Lemma eligible_test busy cooling key :
  negb (isBusy busy key) && negb (isCooling cooling key) = true ↔ eligible busy cooling key.
Proof.
  unfold isBusy, isCooling, eligible.
  rewrite andb_true_iff, !negb_true_iff, !bool_decide_eq_false.
  rewrite <- eq_None_not_Some. done.
Qed.

Lemma purgeExpired_lookup now (cooling : gmap string Z) key expiry :
  purgeExpired now cooling !! key = Some expiry ↔
  cooling !! key = Some expiry ∧ ¬ (now > expiry).
Proof.
  unfold purgeExpired. rewrite map_lookup_filter_Some. simpl.
  split; intros [? ?]; split; auto; lia.
Qed.

Lemma purgeExpired_lookup_None now (cooling : gmap string Z) key :
  purgeExpired now cooling !! key = None ↔
  ∀ expiry, cooling !! key = Some expiry → expiry < now.
Proof.
  unfold purgeExpired. rewrite map_lookup_filter_None. simpl.
  split.
  - intros [Hn | Hall] expiry He; [congruence |].
    specialize (Hall _ He). lia.
  - intros H. destruct (cooling !! key) as [e|] eqn:E; [right | left; done].
    intros x [= <-]. specialize (H _ eq_refl). lia.
Qed.

Section Scan.
Variables (keys : list string) (busy : gset string) (cooling : gmap string Z) (ptr : nat).

Lemma scanKeys_Some offsets key next :
  scanKeys keys busy cooling ptr offsets = Some (key, next) ↔
  ∃ m i, offsets !! m = Some i ∧ keys !! slot keys ptr i = Some key ∧
         eligible busy cooling key ∧
         next = ((slot keys ptr i + 1) mod length keys)%nat ∧
         ∀ m' j key', (m' < m)%nat → offsets !! m' = Some j →
                      keys !! slot keys ptr j = Some key' → ¬ eligible busy cooling key'.
Proof.
  induction offsets as [|i rest IH]; simpl.
  - split; [done |]. intros (m & i & Hm & _). by rewrite lookup_nil in Hm.
  - fold (slot keys ptr i).
    destruct (keys !! slot keys ptr i) as [cand|] eqn:Hc.
    + destruct (negb (isBusy busy cand) && negb (isCooling cooling cand)) eqn:Ht.
      * apply eligible_test in Ht. split.
        -- intros [= <- <-]. exists 0%nat, i. split_and!; auto. intros; lia.
        -- intros (m & i' & Hm & Hk & He & Hn & Hfirst).
           destruct m as [|m].
           ++ simpl in Hm. injection Hm as <-. congruence.
           ++ exfalso. eapply (Hfirst 0%nat i cand); eauto. lia.
      * assert (¬ eligible busy cooling cand) as Hne.
        { rewrite <- eligible_test. congruence. }
        rewrite IH. split.
        -- intros (m & i' & Hm & Hk & He & Hn & Hfirst).
           exists (S m), i'. split_and!; auto.
           intros [|m'] j key' Hlt Hj Hkj; simpl in Hj.
           ++ injection Hj as <-. congruence.
           ++ eapply Hfirst; eauto. lia.
        -- intros (m & i' & Hm & Hk & He & Hn & Hfirst).
           destruct m as [|m].
           ++ simpl in Hm. injection Hm as <-. congruence.
           ++ exists m, i'. split_and!; auto.
              intros m' j key' Hlt Hj Hkj. eapply (Hfirst (S m')); eauto. lia.
    + rewrite IH. split.
      * intros (m & i' & Hm & Hk & He & Hn & Hfirst).
        exists (S m), i'. split_and!; auto.
        intros [|m'] j key' Hlt Hj Hkj; simpl in Hj.
        -- injection Hj as <-. congruence.
        -- eapply Hfirst; eauto. lia.
      * intros (m & i' & Hm & Hk & He & Hn & Hfirst).
        destruct m as [|m].
        -- simpl in Hm. injection Hm as <-. congruence.
        -- exists m, i'. split_and!; auto.
           intros m' j key' Hlt Hj Hkj. eapply (Hfirst (S m')); eauto. lia.
Qed.

Lemma scanKeys_None offsets :
  scanKeys keys busy cooling ptr offsets = None ↔
  ∀ i key, i ∈ offsets → keys !! slot keys ptr i = Some key → ¬ eligible busy cooling key.
Proof.
  induction offsets as [|i rest IH]; simpl.
  - split; [|done]. intros _ i key Hi. by apply elem_of_nil in Hi.
  - fold (slot keys ptr i). destruct (keys !! slot keys ptr i) as [cand|] eqn:Hc.
    + destruct (negb (isBusy busy cand) && negb (isCooling cooling cand)) eqn:Ht.
      * split; [done |]. intros H. exfalso.
        apply (H i cand); [left | done | by apply eligible_test].
      * rewrite IH. split.
        -- intros H j key [-> | Hj]%elem_of_cons Hk.
           ++ rewrite <- eligible_test. congruence.
           ++ eauto.
        -- intros H j key Hj. apply H. by right.
    + rewrite IH. split.
      * intros H j key [-> | Hj]%elem_of_cons Hk; [congruence | eauto].
      * intros H j key Hj. apply H. by right.
Qed.

(** One cycle from any pointer visits every position of the list. *)
Lemma slot_surjective idx :
  (idx < length keys)%nat → ∃ i, (i < length keys)%nat ∧ slot keys ptr i = idx.
Proof.
  intros Hlt. set (n := length keys) in *.
  exists ((idx + (n - ptr mod n)) mod n)%nat. split.
  - apply Nat.mod_upper_bound. lia.
  - unfold slot. fold n.
    rewrite Nat.Div0.add_mod_idemp_r.
    rewrite <- Nat.Div0.add_mod_idemp_l.
    assert (ptr mod n < n)%nat by (apply Nat.mod_upper_bound; lia).
    replace (ptr mod n + (idx + (n - ptr mod n)))%nat with (idx + 1 * n)%nat by lia.
    rewrite Nat.Div0.mod_add. apply Nat.mod_small. lia.
Qed.
End Scan.

Lemma selectKey_Some_iff now st key next :
  selectKey now st = Some (key, next) ↔
  ∃ i, (i < length (apiKeys st))%nat ∧
       apiKeys st !! slot (apiKeys st) (nextKeyIdxRef st) i = Some key ∧
       eligible (activeKeysRef st) (purgeExpired now (cooldownKeysRef st)) key ∧
       next = ((slot (apiKeys st) (nextKeyIdxRef st) i + 1) mod length (apiKeys st))%nat ∧
       ∀ j key', (j < i)%nat →
                 apiKeys st !! slot (apiKeys st) (nextKeyIdxRef st) j = Some key' →
                 ¬ eligible (activeKeysRef st) (purgeExpired now (cooldownKeysRef st)) key'.
Proof.
  unfold selectKey. rewrite scanKeys_Some. split.
  - intros (m & i & Hm & Hk & He & Hn & Hfirst).
    apply lookup_seq in Hm as [-> Hlt]. simpl in *.
    exists m. split_and!; auto.
    intros j key' Hj Hkj. apply (Hfirst j j key'); auto.
    apply lookup_seq. split; [done | lia].
  - intros (i & Hlt & Hk & He & Hn & Hfirst).
    exists i, i. split_and!; auto.
    + apply lookup_seq. done.
    + intros m' j key' Hm' [-> _]%lookup_seq Hkj. simpl in Hkj. eauto.
Qed.

Lemma selectKey_None_iff now st :
  selectKey now st = None ↔
  ∀ key, key ∈ apiKeys st →
         ¬ eligible (activeKeysRef st) (purgeExpired now (cooldownKeysRef st)) key.
Proof.
  unfold selectKey. rewrite scanKeys_None. split.
  - intros H key [idx Hidx]%list_elem_of_lookup.
    destruct (slot_surjective (apiKeys st) (nextKeyIdxRef st) idx) as (i & Hi & Hs).
    { by eapply lookup_lt_Some. }
    apply (H i); [apply elem_of_seq; lia | by rewrite Hs].
  - intros H i key _ Hk. apply H. by eapply list_elem_of_lookup_2.
Qed.


(** ** Item updates *)

Lemma updateFile_ids fileId upd fs :
  (∀ f, FileItem.id (upd f) = FileItem.id f) →
  FileItem.id <$> updateFile fileId upd fs = FileItem.id <$> fs.
Proof.
  intros Hid. unfold updateFile. rewrite <- list_fmap_compose.
  apply list_fmap_ext. intros i f _. simpl.
  destruct (String.eqb (FileItem.id f) fileId); auto.
Qed.

Lemma updateFile_elem fileId upd fs g :
  g ∈ updateFile fileId upd fs ↔
  ∃ f, f ∈ fs ∧ g = (if String.eqb (FileItem.id f) fileId then upd f else f).
Proof.
  unfold updateFile. rewrite list_elem_of_fmap. split.
  - intros (f & -> & Hf). eauto.
  - intros (f & Hf & ->). eauto.
Qed.

Lemma updateFile_other fileId upd fs f :
  f ∈ fs → FileItem.id f ≠ fileId → f ∈ updateFile fileId upd fs.
Proof.
  intros Hf Hne. apply updateFile_elem. exists f. split; [done |].
  apply String.eqb_neq in Hne. by rewrite Hne.
Qed.

Lemma updateFile_hit fileId upd fs f :
  f ∈ fs → FileItem.id f = fileId → upd f ∈ updateFile fileId upd fs.
Proof.
  intros Hf He. apply updateFile_elem. exists f. split; [done |].
  apply String.eqb_eq in He. by rewrite He.
Qed.

(** ** The throttle path *)

(** C6. A worker that pops an item while no credential is eligible puts the
    identifier back at the front, touches no item, holds no credential,
    leaves the in-flight counter as it was and re-arms itself with a delay
    of 1000 ms. *)
Theorem throttle_returns_item_to_front (workerId : nat) (now : Z) (st : Sched)
    (fileId : string) (rest : list string) :
  processingRef st = true →
  queueRef st = fileId :: rest →
  fileId ≠ "" →
  (∀ key, key ∈ apiKeys st →
          ¬ eligible (activeKeysRef st) (purgeExpired now (cooldownKeysRef st)) key) →
  let st' := spawnWorker workerId now st in
  queueRef st' = fileId :: rest ∧
  files st' = files st ∧
  activeWorkersRef st' = activeWorkersRef st ∧
  activeKeysRef st' = activeKeysRef st ∧
  nextKeyIdxRef st' = nextKeyIdxRef st ∧
  processingRef st' = true ∧
  tasks st' = (tasks st ++ [CallSpawnWorker 1000 workerId])%list.
Proof.
  intros Hp Hq Hid Hnone st'. subst st'. unfold spawnWorker.
  rewrite Hp, Hq. simpl.
  apply falsy_false in Hid. rewrite Hid.
  apply selectKey_None_iff in Hnone.
  unfold selectKey in *. simpl. rewrite Hnone. simpl.
  split_and!; auto. lia.
Qed.

Lemma throttle_returns_item_to_front_witness :
  let st := mkSched ["k1"] [] true 1 ["a"; "b"] {["k1"]} ∅ 0 [] in
  queueRef (spawnWorker 2 5000 st) = ["a"; "b"] ∧
  tasks (spawnWorker 2 5000 st) = [CallSpawnWorker 1000 2].
Proof.
  intros st.
  destruct (throttle_returns_item_to_front 2 5000 st "a" ["b"])
    as (Hq & _ & _ & _ & _ & _ & Ht).
  - reflexivity.
  - reflexivity.
  - discriminate.
  - intros key Hk [Hbusy _]. apply Hbusy. subst st. simpl in *.
    apply list_elem_of_singleton in Hk. subst key. set_solver.
  - split; [exact Hq | exact Ht].
Defined.

(** ** Failures of the generation call *)

Lemma resumeWorker_permanent workerId fileId key error now st :
  isKeyError (JsString.toLowerCase error) = false →
  let st' := resumeWorker workerId fileId key (Rejected error) now st in
  files st' = updateFile fileId (FileItem.failed error) (files st) ∧
  queueRef st' = queueRef st ∧
  cooldownKeysRef st' = cooldownKeysRef st ∧
  activeKeysRef st' = activeKeysRef st ∖ {[key]} ∧
  activeWorkersRef st' = activeWorkersRef st - 1.
Proof. intros Hc. unfold resumeWorker. rewrite Hc. simpl. auto. Qed.

Lemma resumeWorker_keyError workerId fileId key error now st :
  isKeyError (JsString.toLowerCase error) = true →
  let st' := resumeWorker workerId fileId key (Rejected error) now st in
  files st' = updateFile fileId (FileItem.with_status Pending) (files st) ∧
  queueRef st' = (queueRef st ++ [fileId])%list ∧
  cooldownKeysRef st' = <[key := now + 30000]> (cooldownKeysRef st) ∧
  activeKeysRef st' = activeKeysRef st ∖ {[key]} ∧
  activeWorkersRef st' = activeWorkersRef st - 1.
Proof. intros Hc. unfold resumeWorker. rewrite Hc. simpl. auto. Qed.

(** C1 (the code departs from the claim). The rejection raised by the
    60-second guard of the generation call reads "Error: Request timed out
    (60s limit)"; none of the six markers occurs in it, so the worker takes
    the permanent branch: the item becomes Failed with that message, it is
    not put back in the queue and the credential gets no cooldown. *)
Theorem builtin_timeout_is_terminal (workerId : nat) (fileId key : string)
    (now : Z) (st : Sched) :
  let error := errorToString requestTimeoutMessage in
  let st' := resumeWorker workerId fileId key (Rejected error) now st in
  isKeyError (JsString.toLowerCase error) = false ∧
  files st' = updateFile fileId (FileItem.failed error) (files st) ∧
  queueRef st' = queueRef st ∧
  cooldownKeysRef st' = cooldownKeysRef st.
Proof.
  intros error st'.
  assert (isKeyError (JsString.toLowerCase error) = false) as Hc by reflexivity.
  split; [exact Hc |].
  destruct (resumeWorker_permanent workerId fileId key error now st Hc)
    as (Hf & Hq & Hcd & _). auto.
Qed.

(** ** Seeding a run *)

Lemma startProcessing_cases st :
  (startProcessing st = st ∧
   (apiKeys st = [] ∨ List.filter isTarget (files st) = [])) ∨
  (apiKeys st ≠ [] ∧ List.filter isTarget (files st) ≠ [] ∧
   startProcessing st =
     set_tasks (tasks st ++ spawnCalls (maxConcurrency (apiKeys st))) (seedRun st)).
Proof.
  unfold startProcessing.
  destruct (apiKeys st) as [|k ks] eqn:Hk; simpl; [left; auto |].
  destruct (List.filter isTarget (files st)) as [|f fs] eqn:Hf; simpl; [left; auto |].
  right. split_and!; try done.
  unfold seedRun. simpl. by rewrite Hk.
Qed.

Lemma elem_of_targetIds st x :
  x ∈ targetIds st ↔
  ∃ f, f ∈ files st ∧ FileItem.id f = x ∧
       (FileItem.status f = Pending ∨ FileItem.status f = Failed).
Proof.
  unfold targetIds. rewrite list_elem_of_fmap. split.
  - intros (f & -> & Hf). apply list_elem_of_In, filter_In in Hf as [Hin Ht].
    exists f. split_and!; [by apply list_elem_of_In | done |].
    unfold isTarget in Ht. destruct (FileItem.status f); auto; discriminate.
  - intros (f & Hin & <- & Hs). exists f. split; [done |].
    apply list_elem_of_In, filter_In. split; [by apply list_elem_of_In |].
    unfold isTarget. by destruct Hs as [-> | ->].
Qed.

Lemma NoDup_ids_filter (p : FileItem.t → bool) (fs : list FileItem.t) :
  NoDup (FileItem.id <$> fs) → NoDup (FileItem.id <$> List.filter p fs).
Proof.
  induction fs as [|f fs IH]; simpl; intros Hnd.
  - constructor.
  - apply NoDup_cons in Hnd as [Hnotin Hnd].
    destruct (p f); simpl; auto.
    apply NoDup_cons. split; auto.
    intros (g & Hg & Hin)%list_elem_of_fmap.
    apply list_elem_of_In, filter_In in Hin as [Hin _].
    apply Hnotin. apply list_elem_of_fmap. exists g. split; [done |].
    by apply list_elem_of_In.
Qed.

Lemma NoDup_targetIds st :
  NoDup (FileItem.id <$> files st) → NoDup (targetIds st).
Proof. apply NoDup_ids_filter. Qed.

Lemma NoDup_ids_unique (fs : list FileItem.t) f g :
  NoDup (FileItem.id <$> fs) → f ∈ fs → g ∈ fs → FileItem.id f = FileItem.id g → f = g.
Proof.
  intros Hnd [i Hi]%list_elem_of_lookup [j Hj]%list_elem_of_lookup Heq.
  assert (i = j) as ->.
  { eapply NoDup_lookup; [exact Hnd | |].
    - rewrite list_lookup_fmap, Hi. reflexivity.
    - rewrite list_lookup_fmap, Hj. simpl. by rewrite Heq. }
  congruence.
Qed.




(** C9. [onRetry] changes neither the queue nor the pending continuations,
    whatever the status of the item. The next [startProcessing] either
    starts no run (state unchanged) or sets the queue to the identifiers of
    the items that are Pending or Failed at that moment; the identifier of an
    item that is Completed then is not among them. *)
Theorem retry_is_queue_neutral (fileId : string) (st : Sched) (f : FileItem.t) :
  NoDup (FileItem.id <$> files st) →
  f ∈ files st →
  FileItem.status f = Completed →
  (queueRef (onRetry fileId st) = queueRef st ∧
   tasks (onRetry fileId st) = tasks st ∧
   processingRef (onRetry fileId st) = processingRef st) ∧
  (startProcessing st = st ∨ queueRef (startProcessing st) = targetIds st) ∧
  (∀ x, x ∈ targetIds st →
        ∃ g, g ∈ files st ∧ FileItem.id g = x ∧
             (FileItem.status g = Pending ∨ FileItem.status g = Failed)) ∧
  FileItem.id f ∉ targetIds st.
Proof.
  intros Hnd Hin Hs. split_and!; auto.
  - destruct (startProcessing_cases st) as [[H _] | (_ & _ & ->)]; [by left | by right].
  - intros x. apply elem_of_targetIds.
  - intros (g & Hg & Hid & Hst)%elem_of_targetIds.
    assert (g = f) as -> by (eapply NoDup_ids_unique; eauto).
    destruct Hst; congruence.
Qed.

Lemma retry_is_queue_neutral_witness :
  let m := {| en := {| title := Val (JString "t"); keywords := Val (JString "k") |};
              ind := {| title := Val (JString "j"); keywords := Val (JString "l") |};
              category := Val (JString "1") |} in
  let done := FileItem.mk "a" Completed m None None in
  let st := mkSched ["k1"] [done; FileItem.mk "b" Pending m None None]
              false 0 [] ∅ ∅ 0 [] in
  queueRef (onRetry "b" st) = [] ∧ "a" ∉ targetIds st.
Proof.
  intros m done st.
  destruct (retry_is_queue_neutral "b" st done) as ((Hq & _) & _ & _ & Hn).
  - subst st done. simpl. apply NoDup_cons. split.
    + intros Hin. apply list_elem_of_singleton in Hin. discriminate.
    + apply NoDup_singleton.
  - subst st. simpl. left.
  - reflexivity.
  - split; [exact Hq | exact Hn].
Defined.

(** ** The generation result *)

Lemma orEmpty_defaulted v : defaulted v (orEmpty v).
Proof.
  unfold defaulted, orEmpty.
  destruct (truthy v) eqn:Ht; split_and!; try done.
  all: try (intros [Hs | Hf]; [done | discriminate]).
Qed.

Lemma validCategory_spec cats v :
  (knownCategory cats v → validCategory cats v = v) ∧
  (¬ knownCategory cats v → validCategory cats v = Val (JString "8")).
Proof.
  unfold validCategory, knownCategory.
  destruct (List.find _ cats) as [c|] eqn:Hfind.
  - apply find_some in Hfind as [Hin Heq]. split; [done |].
    intros Hno. exfalso. apply Hno. exists c. split; [by apply list_elem_of_In |].
    unfold strictEqString in Heq. destruct v as [|[]]; try discriminate.
    apply String.eqb_eq in Heq. by subst.
  - split; [|done]. intros (c & Hin & ->). exfalso.
    apply list_elem_of_In in Hin.
    pose proof (find_none _ _ Hfind c Hin) as Hc. simpl in Hc.
    by rewrite String.eqb_refl in Hc.
Qed.

Lemma classic_known cats v : knownCategory cats v ∨ ¬ knownCategory cats v.
Proof.
  destruct (List.find (λ c, strictEqString (cat_id c) v) cats) as [c|] eqn:Hfind.
  - left. apply find_some in Hfind as [Hin Heq]. exists c.
    split; [by apply list_elem_of_In |].
    unfold strictEqString in Heq. destruct v as [|[]]; try discriminate.
    apply String.eqb_eq in Heq. by subst.
  - right. intros (c & Hin & ->). apply list_elem_of_In in Hin.
    pose proof (find_none _ _ Hfind c Hin) as Hc. simpl in Hc.
    by rewrite String.eqb_refl in Hc.
Qed.

Lemma resultOfResponse_Some cats parse text thumb r :
  resultOfResponse cats parse text thumb = Some r →
  ∃ jsonText parsed cat,
    text = Some jsonText ∧ jsonText ≠ "" ∧ parse jsonText = Some parsed ∧
    getProp (Val parsed) "category" = Some cat ∧
    metadataOfParsed cats parsed = Some (res_metadata r) ∧
    res_thumbnail r = thumb.
Proof.
  unfold resultOfResponse. intros H.
  destruct text as [jsonText|]; [|discriminate].
  destruct (JsString.falsy jsonText) eqn:Hf; [discriminate |].
  destruct (parse jsonText) as [parsed|] eqn:Hp; [|discriminate].
  destruct (metadataOfParsed cats parsed) as [m|] eqn:Hm; [|discriminate].
  injection H as <-. simpl.
  exists jsonText, parsed.
  pose proof Hm as Hm'. unfold metadataOfParsed in Hm'.
  destruct (getProp (Val parsed) "category") as [cat|] eqn:Hc; [|discriminate].
  exists cat. split_and!; auto. by apply falsy_false.
Qed.

(** C10 as stated fails: the reply
    [{"en":{"title":5,"keywords":"k"},"ind":{...},"category":"1"}] is
    returned with the number 5 as English title, not with a string. *)
Lemma nonstring_title_propagates :
  ∃ r, resultOfResponse Scenario.categories
         (Scenario.parseOnly Scenario.numericTitleText Scenario.numericTitleValue)
         (Some Scenario.numericTitleText) None = Some r ∧
       title (en (res_metadata r)) = Val (JNumber 5) ∧
       isString (title (en (res_metadata r))) = false.
Proof. eexists. split_and!; reflexivity. Qed.

(** C10 (amended). Every successful call returns the four text fields as
    the reply's value when that value is truthy and as the empty string
    otherwise, hence as strings whenever the reply holds a string or nothing
    there; the category is the reply's category when it is the identifier of
    an entry of the table and the string "8" otherwise. *)
Theorem generation_result_defaults (CATEGORIES : list Category)
    (JSON_parse : string → option JSON) (responseText thumbnail : option string)
    (r : GenerationResult) :
  resultOfResponse CATEGORIES JSON_parse responseText thumbnail = Some r →
  ∃ jsonText parsed cat,
    responseText = Some jsonText ∧ JSON_parse jsonText = Some parsed ∧
    getProp (Val parsed) "category" = Some cat ∧
    let m := res_metadata r in
    let parsed_en := getPropOpt (Val parsed) "en" in
    let parsed_ind := getPropOpt (Val parsed) "ind" in
    defaulted (getPropOpt parsed_en "title") (title (en m)) ∧
    defaulted (getPropOpt parsed_en "keywords") (keywords (en m)) ∧
    defaulted (getPropOpt parsed_ind "title") (title (ind m)) ∧
    defaulted (getPropOpt parsed_ind "keywords") (keywords (ind m)) ∧
    (knownCategory CATEGORIES cat → category m = cat) ∧
    (¬ knownCategory CATEGORIES cat → category m = Val (JString "8")) ∧
    (knownCategory CATEGORIES (category m) ∨ category m = Val (JString "8")).
Proof.
  intros H.
  apply resultOfResponse_Some in H as (jsonText & parsed & cat & Ht & _ & Hp & Hc & Hm & _).
  exists jsonText, parsed, cat. split_and!; auto.
  unfold metadataOfParsed in Hm. rewrite Hc in Hm. injection Hm as Hm.
  rewrite <- Hm. simpl. split_and!; try apply orEmpty_defaulted.
  - apply validCategory_spec.
  - apply validCategory_spec.
  - destruct (classic_known CATEGORIES cat) as [Hk | Hk].
    + left. by rewrite (proj1 (validCategory_spec CATEGORIES cat) Hk).
    + right. by apply validCategory_spec.
Qed.

(** ** The workers in flight *)

Lemma inFlight_app ts us : inFlight (ts ++ us) = (inFlight ts ++ inFlight us)%list.
Proof. apply omap_app. Qed.

Lemma inFlight_snoc_other ts t : isAwait t = false → inFlight (ts ++ [t]) = inFlight ts.
Proof.
  intros Ht. rewrite inFlight_app. destruct t; try discriminate; simpl; apply app_nil_r.
Qed.

Lemma inFlight_snoc_await ts w f k :
  inFlight (ts ++ [AwaitGenerate w f k]) = (inFlight ts ++ [(f, k)])%list.
Proof. by rewrite inFlight_app. Qed.

Lemma inFlight_spawnCalls ts n : inFlight (ts ++ spawnCalls n) = inFlight ts.
Proof.
  rewrite inFlight_app. unfold spawnCalls.
  assert (∀ l, inFlight ((λ i, CallSpawnWorker 0 (i + 1)%nat) <$> l) = []) as H.
  { induction l; simpl; auto. }
  rewrite H. apply app_nil_r.
Qed.

Lemma inFlight_delete_other ts i t :
  ts !! i = Some t → isAwait t = false → inFlight (delete i ts) = inFlight ts.
Proof.
  revert i. induction ts as [|u ts IH]; intros [|i] Hi Ht; simpl in *; try done.
  - injection Hi as ->. destruct t; try discriminate; done.
  - unfold inFlight in *. simpl. rewrite (IH i Hi Ht). done.
Qed.

Lemma inFlight_delete_await ts i w f k :
  ts !! i = Some (AwaitGenerate w f k) →
  inFlight ts ≡ₚ (f, k) :: inFlight (delete i ts).
Proof.
  intros Hi. unfold inFlight.
  etrans; [apply omap_Permutation, (delete_Permutation _ _ _ Hi) |].
  reflexivity.
Qed.

Lemma elem_of_inFlight ts f k :
  (f, k) ∈ inFlight ts ↔ ∃ w, AwaitGenerate w f k ∈ ts.
Proof.
  unfold inFlight. rewrite list_elem_of_omap. split.
  - intros ([] & Hin & Heq); try discriminate. injection Heq as <- <-. eauto.
  - intros (w & Hin). eauto.
Qed.

(** ** The shapes of a worker turn *)

Lemma checkCompletion_cases st :
  (activeWorkersRef st = 0 ∧ checkCompletion st = add_task (CompletionCheck 1000) st) ∨
  (activeWorkersRef st ≠ 0 ∧ checkCompletion st = st).
Proof.
  unfold checkCompletion. destruct (Z.eqb_spec (activeWorkersRef st) 0); auto.
Qed.

Lemma spawnWorker_cases workerId now st :
  (processingRef st = false ∧ spawnWorker workerId now st = st) ∨
  (processingRef st = true ∧ queueRef st = [] ∧
   spawnWorker workerId now st = checkCompletion st) ∨
  (processingRef st = true ∧ ∃ rest, queueRef st = "" :: rest ∧
   spawnWorker workerId now st = checkCompletion (set_queue rest st)) ∨
  (processingRef st = true ∧ ∃ fileId rest next,
     queueRef st = fileId :: rest ∧ fileId ≠ "" ∧
     (selectKey now st = None ∧ next = nextKeyIdxRef st ∨
      selectKey now st = Some ("", next)) ∧
     spawnWorker workerId now st = throttled workerId now next st) ∨
  (processingRef st = true ∧ ∃ fileId rest key next,
     queueRef st = fileId :: rest ∧ fileId ≠ "" ∧
     selectKey now st = Some (key, next) ∧ key ≠ "" ∧
     spawnWorker workerId now st = dispatched workerId now fileId rest key next st).
Proof.
  unfold spawnWorker.
  destruct (processingRef st) eqn:Hp; simpl; [right | left; auto].
  destruct (queueRef st) as [|fileId rest] eqn:Hq; [left; auto | right].
  destruct (JsString.falsy fileId) eqn:Hf.
  { left. apply falsy_spec in Hf. subst. split; [done |]. eauto. }
  right. apply falsy_false in Hf.
  assert (∀ a q, selectKey now (set_activeWorkers a (set_queue q st)) = selectKey now st)
    as Hsel by reflexivity.
  simpl. rewrite !Hsel.
  destruct (selectKey now st) as [[key next]|] eqn:Hs; simpl.
  - destruct (JsString.falsy key) eqn:Hk.
    + left. apply falsy_spec in Hk. subst key. split; [done |].
      exists fileId, rest, next. split_and!; auto.
      unfold throttled. by rewrite Hq.
    + right. apply falsy_false in Hk. split; [done |].
      exists fileId, rest, key, next. split_and!; auto.
  - left. split; [done |]. exists fileId, rest, (nextKeyIdxRef st). split_and!; auto.
    unfold throttled. by rewrite Hq.
Qed.

(** What a worker that popped an item leaves in the cooldown map and in the
    rotation pointer. *)
Lemma spawnWorker_selection workerId now st fileId rest :
  processingRef st = true → queueRef st = fileId :: rest → fileId ≠ "" →
  cooldownKeysRef (spawnWorker workerId now st) = purgeExpired now (cooldownKeysRef st) ∧
  nextKeyIdxRef (spawnWorker workerId now st) =
    match selectKey now st with
    | Some (_, next) => next
    | None => nextKeyIdxRef st
    end.
Proof.
  intros Hp Hq Hid.
  destruct (spawnWorker_cases workerId now st)
    as [[Hp' _] | [(_ & Hq' & _) | [(_ & rest' & Hq' & _) | [Hc | Hc]]]];
    try congruence.
  - destruct Hc as (_ & f & r & next & _ & _ & [[-> ->] | ->] & ->); done.
  - destruct Hc as (_ & f & r & k & next & _ & _ & -> & _ & ->). done.
Qed.

(** C4. Every selection purges exactly the cooldown entries with
    [now > expiry], then scans one full cycle from the rotation pointer: it
    returns the first credential that is neither busy nor cooling together
    with the pointer just past it (mod the pool size), and returns nothing
    exactly when no credential of the list is eligible. The worker stores
    the purged map and the returned pointer. *)
Theorem selectKey_round_robin (now : Z) (st : Sched) :
  let keys := apiKeys st in
  let n := length keys in
  let ptr := nextKeyIdxRef st in
  let cooling := purgeExpired now (cooldownKeysRef st) in
  (∀ key expiry, cooling !! key = Some expiry ↔
                 cooldownKeysRef st !! key = Some expiry ∧ ¬ (now > expiry)) ∧
  (∀ key next,
     selectKey now st = Some (key, next) ↔
     ∃ i, (i < n)%nat ∧ keys !! slot keys ptr i = Some key ∧
          eligible (activeKeysRef st) cooling key ∧
          next = ((slot keys ptr i + 1) mod n)%nat ∧
          ∀ j key', (j < i)%nat → keys !! slot keys ptr j = Some key' →
                    ¬ eligible (activeKeysRef st) cooling key') ∧
  (selectKey now st = None ↔
   ∀ key, key ∈ keys → ¬ eligible (activeKeysRef st) cooling key) ∧
  (∀ workerId fileId rest,
     processingRef st = true → queueRef st = fileId :: rest → fileId ≠ "" →
     cooldownKeysRef (spawnWorker workerId now st) = cooling ∧
     nextKeyIdxRef (spawnWorker workerId now st) =
       match selectKey now st with
       | Some (_, next) => next
       | None => ptr
       end).
Proof.
  intros keys n ptr cooling. split_and!.
  - intros key expiry. apply purgeExpired_lookup.
  - intros key next. apply selectKey_Some_iff.
  - apply selectKey_None_iff.
  - intros workerId fileId rest. apply spawnWorker_selection.
Qed.

(** ** The invariant *)

(** [Inv] only reads the items, the run flag, the counter, the queue, the
    busy set (from below) and the suspended workers. *)
Lemma Inv_frame st st' :
  files st' = files st →
  processingRef st' = processingRef st →
  activeWorkersRef st' = activeWorkersRef st →
  queueRef st' = queueRef st →
  activeKeysRef st ⊆ activeKeysRef st' →
  inFlight (tasks st') = inFlight (tasks st) →
  (∀ delay, CompletionCheck delay ∈ tasks st' → delay = 1000) →
  Inv st → Inv st'.
Proof.
  intros Hf Hp Ha Hq Hk Ht Hg [].
  constructor; unfold inFlightIds, inFlightKeys in *;
    rewrite ?Hf, ?Hp, ?Ha, ?Hq, ?Ht; auto.
Qed.

Lemma Inv_initial : Inv initial.
Proof.
  constructor; unfold inFlightIds, inFlightKeys; simpl;
    try done; try apply NoDup_nil_2; intros; absurd_nil.
Qed.

Lemma Inv_take_other st i t :
  tasks st !! i = Some t → isAwait t = false → Inv st → Inv (take_task i st).
Proof.
  intros Hi Ht HI.
  apply (Inv_frame st); [done | done | done | done | done | | | done]; simpl.
  - by eapply inFlight_delete_other.
  - intros d Hd. apply (inv_grace _ HI). by eapply list_elem_of_delete_inv.
Qed.

Lemma Inv_checkCompletion st : Inv st → Inv (checkCompletion st).
Proof.
  intros HI. destruct (checkCompletion_cases st) as [[_ ->] | [_ ->]]; [|done].
  apply (Inv_frame st); [done | done | done | done | done | | | done]; simpl.
  - by apply inFlight_snoc_other.
  - grace_of HI.
Qed.

Lemma Inv_throttled workerId now next st :
  Inv st → Inv (throttled workerId now next st).
Proof.
  intros HI.
  apply (Inv_frame st); [done | done | | done | done | | | done]; simpl.
  - lia.
  - by apply inFlight_snoc_other.
  - grace_of HI.
Qed.

Lemma updateFile_status_inv fileId upd fs g :
  (∀ f, FileItem.id (upd f) = FileItem.id f) →
  g ∈ updateFile fileId upd fs →
  ∃ f, f ∈ fs ∧ FileItem.id g = FileItem.id f ∧
       ((FileItem.id f = fileId ∧ g = upd f) ∨ (FileItem.id f ≠ fileId ∧ g = f)).
Proof.
  intros Hid (f & Hf & ->)%updateFile_elem. exists f. split; [done |].
  destruct (String.eqb_spec (FileItem.id f) fileId); auto.
Qed.

Lemma Inv_dispatched workerId now fileId rest key next st :
  Inv st →
  processingRef st = true →
  queueRef st = fileId :: rest →
  key ∉ activeKeysRef st →
  Inv (dispatched workerId now fileId rest key next st).
Proof.
  intros HI Hp Hq Hkey.
  pose proof (inv_work_nodup _ HI) as Hnd. rewrite Hq in Hnd.
  pose proof (inv_work_known _ HI) as Hknown. rewrite Hq in Hknown.
  assert (inFlight (tasks (dispatched workerId now fileId rest key next st)) =
          (inFlight (tasks st) ++ [(fileId, key)])%list) as Hfl
    by apply inFlight_snoc_await.
  constructor; unfold inFlightIds, inFlightKeys; rewrite ?Hfl, ?fmap_app; simpl.
  - rewrite updateFile_ids by done. apply HI.
  - intros g (f & Hf & Hid & _)%updateFile_status_inv; [|done].
    rewrite Hid. by apply (inv_ids_nonempty _ HI).
  - rewrite app_assoc, <- Permutation_cons_append. exact Hnd.
  - intros x Hx. rewrite updateFile_ids by done. apply Hknown.
    rewrite app_assoc in Hx. apply elem_of_app in Hx as [Hx | Hx].
    + by right.
    + apply list_elem_of_singleton in Hx as ->. by left.
  - apply NoDup_app. split_and!.
    + apply HI.
    + intros x Hx ->%list_elem_of_singleton. apply Hkey. by apply (inv_keys_busy _ HI).
    + apply NoDup_singleton.
  - intros k [Hk | ->%list_elem_of_singleton]%elem_of_app.
    + apply elem_of_union_r. by apply (inv_keys_busy _ HI).
    + apply elem_of_union_l. by apply elem_of_singleton.
  - rewrite (inv_counter _ HI), length_app. simpl. lia.
  - rewrite Hp. discriminate.
  - intros g (f & Hf & Hid & Hcase)%updateFile_status_inv Hs; [|done].
    rewrite Hid. destruct Hcase as [[He _] | [_ ->]].
    + apply elem_of_app. right. rewrite He. by apply list_elem_of_singleton.
    + apply elem_of_app. left. by apply (inv_processing _ HI).
  - intros _ g (f & Hf & Hid & Hcase)%updateFile_status_inv Hs; [|done].
    destruct Hcase as [[_ ->] | [Hne ->]]; [discriminate |].
    pose proof (inv_pending _ HI Hp f Hf Hs) as Hin. rewrite Hq in Hin.
    apply elem_of_cons in Hin as [? | ?]; [done | done].
  - grace_of HI.
Qed.

Lemma Inv_queue_nonempty_ids st x : Inv st → x ∈ queueRef st → x ≠ "".
Proof.
  intros HI Hx.
  assert (x ∈ FileItem.id <$> files st) as (f & -> & Hf)%list_elem_of_fmap.
  { apply (inv_work_known _ HI). apply elem_of_app. by left. }
  by apply (inv_ids_nonempty _ HI).
Qed.

Lemma selectKey_free now st key next :
  selectKey now st = Some (key, next) →
  key ∈ apiKeys st ∧ (key ∉ activeKeysRef st) ∧
  ∀ expiry, cooldownKeysRef st !! key = Some expiry → expiry < now.
Proof.
  intros (i & _ & Hk & [Hbusy Hcool] & _)%selectKey_Some_iff.
  split_and!; [by eapply list_elem_of_lookup_2 | done |].
  by apply purgeExpired_lookup_None.
Qed.

#[local] Hint Resolve Inv_checkCompletion Inv_throttled Inv_dispatched : sched.

Lemma Inv_spawnWorker workerId now st : Inv st → Inv (spawnWorker workerId now st).
Proof.
  intros HI.
  destruct (spawnWorker_cases workerId now st)
    as [[_ ->] | [(_ & _ & ->) | [(_ & rest & Hq & _) | [H | H]]]].
  - done.
  - auto with sched.
  - exfalso. apply (Inv_queue_nonempty_ids st "" HI); [|done]. rewrite Hq. by left.
  - destruct H as (_ & fileId & rest & next & _ & _ & _ & ->). auto with sched.
  - destruct H as (Hp & fileId & rest & key & next & Hq & _ & Hs & _ & ->).
    apply selectKey_free in Hs as (_ & ? & _). auto with sched.
Qed.

Lemma resumeWorker_frame workerId fileId key o now st :
  let st' := resumeWorker workerId fileId key o now st in
  apiKeys st' = apiKeys st ∧
  processingRef st' = processingRef st ∧
  activeWorkersRef st' = activeWorkersRef st - 1 ∧
  activeKeysRef st' = activeKeysRef st ∖ {[key]} ∧
  nextKeyIdxRef st' = nextKeyIdxRef st ∧
  tasks st' = (tasks st ++ [CallSpawnWorker 0 workerId])%list.
Proof.
  unfold resumeWorker. destruct o as [r | error]; simpl; [done |].
  destruct (isKeyError (JsString.toLowerCase error)); simpl; done.
Qed.

Lemma resumeWorker_resolved workerId fileId key r now st :
  let st' := resumeWorker workerId fileId key (Resolved r) now st in
  files st' = updateFile fileId (FileItem.completed r) (files st) ∧
  queueRef st' = queueRef st ∧
  cooldownKeysRef st' = cooldownKeysRef st.
Proof. done. Qed.

Lemma Inv_settled_shape st0 i workerId fileId key st' upd (requeue : bool) :
  Inv st0 →
  tasks st0 !! i = Some (AwaitGenerate workerId fileId key) →
  (∀ f, FileItem.id (upd f) = FileItem.id f) →
  (∀ f, FileItem.status (upd f) ≠ Processing) →
  (∀ f, FileItem.status (upd f) = Pending → requeue = true) →
  files st' = updateFile fileId upd (files st0) →
  queueRef st' = (if requeue then queueRef st0 ++ [fileId] else queueRef st0)%list →
  processingRef st' = processingRef st0 →
  activeWorkersRef st' = activeWorkersRef st0 - 1 →
  activeKeysRef st' = activeKeysRef st0 ∖ {[key]} →
  tasks st' = (delete i (tasks st0) ++ [CallSpawnWorker 0 workerId])%list →
  Inv st'.
Proof.
  intros HI Hi Hid Hnp Hpend Hf Hq Hp Ha Hk Ht.
  pose proof (inFlight_delete_await _ _ _ _ _ Hi) as Hperm.
  set (R := inFlight (delete i (tasks st0))) in *.
  assert (inFlight (tasks st') = R) as Hfl.
  { rewrite Ht. by apply inFlight_snoc_other. }
  assert (processingRef st0 = true) as Hp0.
  { destruct (processingRef st0) eqn:E; [done |].
    destruct (inv_idle _ HI E) as [_ Hnil]. rewrite Hnil in Hperm.
    by apply Permutation_nil_cons in Hperm. }
  pose proof (inv_work_nodup _ HI) as Hnd.
  pose proof (inv_work_known _ HI) as Hknown.
  pose proof (inv_keys_nodup _ HI) as Hkn.
  pose proof (inv_keys_busy _ HI) as Hkb.
  pose proof (inv_processing _ HI) as Hproc.
  unfold inFlightIds, inFlightKeys in *.
  rewrite Hperm in Hnd, Hkn. simpl in Hnd, Hkn.
  assert (∀ x, x ∈ (inFlight (tasks st0)).*1 ↔ x = fileId ∨ x ∈ R.*1) as Hids.
  { intros x. rewrite Hperm. simpl. apply elem_of_cons. }
  assert (∀ x, x ∈ (inFlight (tasks st0)).*2 ↔ x = key ∨ x ∈ R.*2) as Hkeys.
  { intros x. rewrite Hperm. simpl. apply elem_of_cons. }
  apply NoDup_cons in Hkn as [Hkfresh Hkn].
  constructor; unfold inFlightIds, inFlightKeys; rewrite ?Hfl, ?Hf, ?Hq, ?Hp, ?Ha, ?Hk.
  - rewrite updateFile_ids by done. apply HI.
  - intros g (f & Hin & Hgid & _)%updateFile_status_inv; [|done].
    rewrite Hgid. by apply (inv_ids_nonempty _ HI).
  - destruct requeue.
    + rewrite <- app_assoc. simpl. exact Hnd.
    + rewrite <- Permutation_middle in Hnd. by apply NoDup_cons in Hnd as [_ ?].
  - intros x Hx. rewrite updateFile_ids by done. apply Hknown.
    rewrite elem_of_app, Hids. rewrite elem_of_app in Hx.
    destruct requeue; [|tauto].
    rewrite elem_of_app, list_elem_of_singleton in Hx. tauto.
  - exact Hkn.
  - intros k Hin. apply elem_of_difference. split.
    + apply Hkb, Hkeys. by right.
    + intros ->%elem_of_singleton. done.
  - rewrite (inv_counter _ HI), Hperm. simpl. lia.
  - rewrite Hp0. discriminate.
  - intros g (f & Hin & Hgid & Hcase)%updateFile_status_inv Hs; [|done].
    destruct Hcase as [[_ ->] | [Hne ->]]; [by apply Hnp in Hs |].
    apply Hproc, Hids in Hs as [? | ?]; done.
  - intros _ g (f & Hin & Hgid & Hcase)%updateFile_status_inv Hs; [|done].
    destruct Hcase as [[He ->] | [Hne ->]].
    + rewrite (Hpend _ Hs), Hid, He. apply elem_of_app. right. by left.
    + pose proof (inv_pending _ HI Hp0 f Hin Hs).
      destruct requeue; [apply elem_of_app; by left | done].
  - intros d Hd. rewrite Ht in Hd.
    apply elem_of_app in Hd as [Hd | Hd%list_elem_of_singleton]; [|discriminate].
    apply (inv_grace _ HI). by eapply list_elem_of_delete_inv.
Qed.

Lemma Inv_resumeWorker st i workerId fileId key o now :
  Inv st →
  tasks st !! i = Some (AwaitGenerate workerId fileId key) →
  Inv (resumeWorker workerId fileId key o now (take_task i st)).
Proof.
  intros HI Hi.
  destruct (resumeWorker_frame workerId fileId key o now (take_task i st))
    as (_ & Hp & Ha & Hk & _ & Ht).
  destruct o as [r | error].
  - destruct (resumeWorker_resolved workerId fileId key r now (take_task i st))
      as (Hf & Hq & _).
    by eapply (Inv_settled_shape st i workerId fileId key _ (FileItem.completed r) false).
  - destruct (isKeyError (JsString.toLowerCase error)) eqn:Hc.
    + destruct (resumeWorker_keyError workerId fileId key error now (take_task i st) Hc)
        as (Hf & Hq & _).
      by eapply (Inv_settled_shape st i workerId fileId key _
                   (FileItem.with_status Pending) true).
    + destruct (resumeWorker_permanent workerId fileId key error now (take_task i st) Hc)
        as (Hf & Hq & _).
      by eapply (Inv_settled_shape st i workerId fileId key _
                   (FileItem.failed error) false).
Qed.

Lemma Inv_completionCallback st : Inv st → Inv (completionCallback st).
Proof.
  intros HI. unfold completionCallback.
  destruct (length (queueRef st) =? 0)%nat eqn:Hq; simpl; [|done].
  destruct (Z.eqb_spec (activeWorkersRef st) 0) as [Ha | Ha]; simpl; [|done].
  apply Nat.eqb_eq, nil_length_inv in Hq.
  assert (inFlight (tasks st) = []) as Hnil.
  { apply nil_length_inv. pose proof (inv_counter _ HI). lia. }
  destruct HI. constructor; simpl; auto. discriminate.
Qed.

Lemma elem_of_spawnCalls t n : t ∈ spawnCalls n → isAwait t = false ∧ ∀ d, t ≠ CompletionCheck d.
Proof. unfold spawnCalls. intros (i & -> & _)%list_elem_of_fmap. done. Qed.

Lemma resetFailed_id f : FileItem.id (resetFailed f) = FileItem.id f.
Proof. unfold resetFailed. by destruct (FileItem.status f). Qed.

Lemma Inv_startProcessing st :
  Inv st → processingRef st = false → Inv (startProcessing st).
Proof.
  intros HI Hp.
  destruct (startProcessing_cases st) as [[-> _] | (_ & _ & ->)]; [done |].
  destruct (inv_idle _ HI Hp) as [Hq Hnil].
  assert (FileItem.id <$> (resetFailed <$> files st) = FileItem.id <$> files st) as Hids.
  { rewrite <- list_fmap_compose. apply list_fmap_ext. intros ? f _. apply resetFailed_id. }
  constructor; unfold inFlightIds, inFlightKeys; simpl;
    rewrite ?inFlight_spawnCalls, ?Hnil, ?Hids; simpl; rewrite ?app_nil_r.
  - apply HI.
  - intros g (f & -> & Hf)%list_elem_of_fmap. rewrite resetFailed_id.
    by apply (inv_ids_nonempty _ HI).
  - apply NoDup_targetIds, HI.
  - intros x (f & Hf & <- & _)%elem_of_targetIds. apply list_elem_of_fmap. eauto.
  - constructor.
  - intros k Hk. by apply elem_of_nil in Hk.
  - done.
  - discriminate.
  - intros g (f & -> & Hf)%list_elem_of_fmap Hs. exfalso.
    unfold resetFailed in Hs. destruct (FileItem.status f) eqn:E; simpl in Hs; try congruence.
    pose proof (inv_processing _ HI f Hf E) as Hin.
    unfold inFlightIds in Hin. rewrite Hnil in Hin. by apply elem_of_nil in Hin.
  - intros _ g (f & -> & Hf)%list_elem_of_fmap Hs. rewrite resetFailed_id.
    apply elem_of_targetIds. exists f. split_and!; auto.
    unfold resetFailed in Hs. destruct (FileItem.status f) eqn:E; simpl in Hs; auto; congruence.
  - intros d [Hd | Hd]%elem_of_app.
    + by apply (inv_grace _ HI).
    + apply elem_of_spawnCalls in Hd as [_ Hd]. by destruct (Hd d).
Qed.

(** The handlers of the page run only between runs, when the queue is
    empty and no worker is suspended. *)
Lemma Inv_idle_files st fs :
  Inv st → processingRef st = false →
  NoDup (FileItem.id <$> fs) →
  (∀ f, f ∈ fs → FileItem.id f ≠ "") →
  (∀ f, f ∈ fs → FileItem.status f ≠ Processing) →
  Inv (set_files fs st).
Proof.
  intros HI Hp Hnd Hne Hnp.
  destruct (inv_idle _ HI Hp) as [Hq Hnil].
  destruct HI. constructor; unfold inFlightIds, inFlightKeys in *; simpl; auto.
  - rewrite Hq, Hnil. simpl. intros x Hx. by apply elem_of_nil in Hx.
  - intros f Hf Hs. by apply Hnp in Hs.
  - rewrite Hp. discriminate.
Qed.

Lemma Inv_idle_not_processing st f :
  Inv st → processingRef st = false → f ∈ files st → FileItem.status f ≠ Processing.
Proof.
  intros HI Hp Hf Hs. destruct (inv_idle _ HI Hp) as [_ Hnil].
  pose proof (inv_processing _ HI f Hf Hs) as Hin.
  unfold inFlightIds in Hin. rewrite Hnil in Hin. by apply elem_of_nil in Hin.
Qed.

Lemma Inv_step ev st st' : Inv st → step ev st st' → Inv st'.
Proof.
  intros HI Hstep. destruct Hstep.
  - by apply Inv_startProcessing.
  - apply Inv_spawnWorker. by eapply Inv_take_other.
  - by apply Inv_resumeWorker.
  - apply Inv_completionCallback. by eapply Inv_take_other.
  - apply Inv_idle_files; auto.
    + rewrite updateFile_ids by done. apply HI.
    + intros g (f & Hf & Hid & _)%updateFile_status_inv; [|done].
      rewrite Hid. by apply (inv_ids_nonempty _ HI).
    + intros g (f & Hf & Hid & [[_ ->] | [_ ->]])%updateFile_status_inv; [| |done].
      * discriminate.
      * by eapply Inv_idle_not_processing.
  - apply Inv_idle_files; auto.
    + apply NoDup_ids_filter, HI.
    + intros f [Hf _]%list_elem_of_In%filter_In. apply (inv_ids_nonempty _ HI).
      by apply list_elem_of_In.
    + intros f [Hf _]%list_elem_of_In%filter_In.
      eapply Inv_idle_not_processing; eauto. by apply list_elem_of_In.
  - unfold handleClearAll.
    assert (Inv (set_files [] st)) as HI'.
    { apply Inv_idle_files; auto.
      - constructor.
      - intros f Hf. by apply elem_of_nil in Hf.
      - intros f Hf. by apply elem_of_nil in Hf. }
    destruct HI'. constructor; simpl in *; auto. discriminate.
  - destruct H0 as [Hnd Hall]. rewrite Forall_forall in Hall.
    apply Inv_idle_files; auto.
    + intros f [Hf | Hf]%elem_of_app.
      * by apply (inv_ids_nonempty _ HI).
      * apply Hall in Hf. tauto.
    + intros f [Hf | Hf]%elem_of_app.
      * by eapply Inv_idle_not_processing.
      * apply Hall in Hf as [_ ->]. discriminate.
  - apply (Inv_frame st); simpl; auto. apply HI.
Qed.

Lemma reachable_Inv st : reachable st → Inv st.
Proof.
  induction 1 as [|ev st st' _ IH Hstep]; [apply Inv_initial | by eapply Inv_step].
Qed.

(** ** Who may acquire a credential *)

Lemma inFlight_delete_subseteq ts i : inFlight (delete i ts) ⊆ inFlight ts.
Proof.
  intros [f k] (w & Hin)%elem_of_inFlight. apply elem_of_inFlight.
  exists w. by eapply list_elem_of_delete_inv.
Qed.

Lemma inFlight_checkCompletion st : inFlight (tasks (checkCompletion st)) = inFlight (tasks st).
Proof.
  destruct (checkCompletion_cases st) as [[_ ->] | [_ ->]]; [|done].
  by apply inFlight_snoc_other.
Qed.

(** The pairs in flight after a turn are those in flight before it, except
    for the one a dispatching worker adds. *)
Lemma step_inFlight ev st st' fileId key :
  step ev st st' →
  (fileId, key) ∈ inFlight (tasks st') →
  (fileId, key) ∈ inFlight (tasks st) ∨
  ∃ i now next rest, ev = EvSpawn i now ∧ processingRef st = true ∧
                     queueRef st = fileId :: rest ∧
                     selectKey now st = Some (key, next).
Proof.
  intros Hstep Hin. destruct Hstep.
  - left. destruct (startProcessing_cases st) as [[Hs _] | (_ & _ & Hs)];
      rewrite Hs in Hin; [done |]. simpl in Hin. by rewrite inFlight_spawnCalls in Hin.
  - assert (inFlight (tasks (take_task i st)) ⊆ inFlight (tasks st)) as Hsub
      by apply inFlight_delete_subseteq.
    destruct (spawnWorker_cases workerId now (take_task i st))
      as [[_ Hs] | [(_ & _ & Hs) | [(_ & rest & _ & Hs) | [Hc | Hc]]]].
    + rewrite Hs in Hin. left. by apply Hsub.
    + rewrite Hs, inFlight_checkCompletion in Hin. left. by apply Hsub.
    + rewrite Hs, inFlight_checkCompletion in Hin. left. by apply Hsub.
    + destruct Hc as (_ & f & rest & next & _ & _ & _ & Hs). rewrite Hs in Hin.
      simpl in Hin. rewrite inFlight_snoc_other in Hin by done. left. by apply Hsub.
    + destruct Hc as (Hp & f & rest & k & next & Hq & _ & Hsel & _ & Hs).
      rewrite Hs in Hin. simpl in Hin. rewrite inFlight_snoc_await in Hin.
      apply elem_of_app in Hin as [Hin | Hin%list_elem_of_singleton].
      * left. by apply Hsub.
      * injection Hin as -> ->. right. exists i, now, next, rest. split_and!; auto.
  - left.
    destruct (resumeWorker_frame workerId fileId0 key0 o now (take_task i st))
      as (_ & _ & _ & _ & _ & Ht).
    rewrite Ht, inFlight_snoc_other in Hin by done.
    by apply (inFlight_delete_subseteq (tasks st) i).
  - left. apply (inFlight_delete_subseteq (tasks st) i).
    unfold completionCallback in Hin.
    by destruct (_ && _) in Hin.
  - by left.
  - by left.
  - by left.
  - by left.
  - by left.
Qed.

(** C2. In every reachable state the credentials held by the suspended
    workers are pairwise distinct and all marked busy; and a key enters
    flight only through a worker whose scan found it not busy and whose
    clock was strictly past any cooldown recorded for it. *)
Theorem credentials_exclusive_and_cooled (st : Sched) :
  reachable st →
  NoDup (inFlightKeys st) ∧
  (∀ key, key ∈ inFlightKeys st → key ∈ activeKeysRef st) ∧
  (∀ ev st' fileId key,
     step ev st st' → holds st' fileId key → ¬ holds st fileId key →
     ∃ i now, ev = EvSpawn i now ∧ key ∈ apiKeys st ∧
              (key ∉ activeKeysRef st) ∧
              (key ∉ inFlightKeys st) ∧
              ∀ expiry, cooldownKeysRef st !! key = Some expiry → expiry < now).
Proof.
  intros HI%reachable_Inv. split_and!.
  - apply HI.
  - apply HI.
  - intros ev st' fileId key Hstep Hnew Hold. unfold holds in *.
    destruct (step_inFlight _ _ _ _ _ Hstep Hnew)
      as [? | (i & now & next & rest & -> & _ & _ & Hsel)]; [done |].
    apply selectKey_free in Hsel as (Hk & Hfree & Hcool).
    exists i, now. split_and!; auto.
    intros Hin. apply Hfree. by apply (inv_keys_busy _ HI).
Qed.

(** C3. In every reachable state the queue holds no identifier twice, no
    queued identifier is in flight at a worker, and no identifier is in
    flight at two workers. *)
Theorem queue_ids_unique_and_not_in_flight (st : Sched) :
  reachable st →
  NoDup (queueRef st) ∧
  (∀ fileId, fileId ∈ queueRef st → fileId ∉ inFlightIds st) ∧
  NoDup (inFlightIds st).
Proof.
  intros HI%reachable_Inv.
  pose proof (inv_work_nodup _ HI) as Hnd.
  apply NoDup_app in Hnd as (Hq & Hdisj & Hfl). auto.
Qed.

(** ** Cooldown *)

Lemma elem_of_inFlightKeys st key :
  key ∈ inFlightKeys st ↔ ∃ fileId, (fileId, key) ∈ inFlight (tasks st).
Proof.
  unfold inFlightKeys. rewrite list_elem_of_fmap. split.
  - intros ([f k] & -> & Hin). eauto.
  - intros (f & Hin). exists (f, key). auto.
Qed.

Lemma elem_of_inFlightIds st fileId :
  fileId ∈ inFlightIds st ↔ ∃ key, (fileId, key) ∈ inFlight (tasks st).
Proof.
  unfold inFlightIds. rewrite list_elem_of_fmap. split.
  - intros ([f k] & -> & Hin). eauto.
  - intros (k & Hin). exists (fileId, k). auto.
Qed.

Lemma lookup_await_inFlight st i workerId fileId key :
  tasks st !! i = Some (AwaitGenerate workerId fileId key) →
  (fileId, key) ∈ inFlight (tasks st).
Proof. intros Hi. apply elem_of_inFlight. exists workerId. by eapply list_elem_of_lookup_2. Qed.

Lemma purgeExpired_keeps now (cooling : gmap string Z) key expiry :
  cooling !! key = Some expiry → now ≤ expiry →
  purgeExpired now cooling !! key = Some expiry.
Proof. intros Hc Hle. apply purgeExpired_lookup. split; [done | lia]. Qed.

Lemma cooldown_checkCompletion st : cooldownKeysRef (checkCompletion st) = cooldownKeysRef st.
Proof. by destruct (checkCompletion_cases st) as [[_ ->] | [_ ->]]. Qed.

(** A cooldown entry survives every turn taken before its expiry, and its
    key stays out of flight. *)
Lemma coolingDown_step ev st st' key expiry :
  step ev st st' → beforeDeadline expiry ev st →
  coolingDown key expiry st → coolingDown key expiry st'.
Proof.
  intros Hstep Hev [Hcool Hfree]. split.
  - destruct Hstep; simpl in Hev; try done.
    + by destruct (startProcessing_cases st) as [[-> _] | (_ & _ & ->)].
    + destruct (spawnWorker_cases workerId now (take_task i st))
        as [[_ ->] | [(_ & _ & ->) | [(_ & rest & _ & ->) | [Hc | Hc]]]];
        rewrite ?cooldown_checkCompletion; try done.
      * destruct Hc as (_ & f & rest & next & _ & _ & _ & ->). simpl.
        by apply purgeExpired_keeps.
      * destruct Hc as (_ & f & rest & k & next & _ & _ & _ & _ & ->). simpl.
        by apply purgeExpired_keeps.
    + assert (key0 ≠ key) as Hne.
      { intros ->. apply Hfree, elem_of_inFlightKeys. exists fileId.
        by eapply lookup_await_inFlight. }
      destruct o as [r | error]; [done |].
      destruct (isKeyError (JsString.toLowerCase error)) eqn:Hc.
      * destruct (resumeWorker_keyError workerId fileId key0 error now (take_task i st) Hc)
          as (_ & _ & -> & _). simpl. by rewrite lookup_insert_ne.
      * by destruct (resumeWorker_permanent workerId fileId key0 error now (take_task i st) Hc)
          as (_ & _ & -> & _).
    + unfold completionCallback. by destruct (_ && _).
  - intros (fileId & Hin)%elem_of_inFlightKeys.
    destruct (step_inFlight _ _ _ _ _ Hstep Hin)
      as [Hold | (i & now & next & rest & -> & _ & _ & Hsel)].
    + apply Hfree, elem_of_inFlightKeys. eauto.
    + simpl in Hev. apply selectKey_free in Hsel as (_ & _ & Hexp).
      specialize (Hexp _ Hcool). lia.
Qed.

Lemma coolingDown_run key expiry st st' :
  run (beforeDeadline expiry) st st' →
  coolingDown key expiry st → coolingDown key expiry st'.
Proof.
  induction 1 as [|ev st st' st'' Hev Hstep _ IH]; [done |].
  intros Hc. apply IH. by eapply coolingDown_step.
Qed.

(** C5 (amended). When the generation call of a worker in flight fails with a
    credential-exhaustion error at time [now], the item, which was not in
    the queue, is appended to it once and is Pending; the credential is
    released and cools until [now + 30000]; and as long as the workers read
    a clock not past that instant and the key list is not replaced, no
    worker takes that credential. *)
Theorem key_error_requeues_and_cools (st : Sched) (i workerId : nat)
    (fileId key error : string) (now : Z) :
  reachable st →
  tasks st !! i = Some (AwaitGenerate workerId fileId key) →
  isKeyError (JsString.toLowerCase error) = true →
  let st' := resumeWorker workerId fileId key (Rejected error) now (take_task i st) in
  queueRef st' = (queueRef st ++ [fileId])%list ∧
  (fileId ∉ queueRef st) ∧
  NoDup (queueRef st') ∧
  (∃ f, f ∈ files st' ∧ FileItem.id f = fileId) ∧
  (∀ f, f ∈ files st' → FileItem.id f = fileId → FileItem.status f = Pending) ∧
  (key ∉ activeKeysRef st') ∧
  cooldownKeysRef st' !! key = Some (now + 30000) ∧
  (∀ st'', run (beforeDeadline (now + 30000)) st' st'' →
           cooldownKeysRef st'' !! key = Some (now + 30000) ∧
           (key ∉ inFlightKeys st'') ∧
           ∀ t, t ≤ now + 30000 → ∀ next, selectKey t st'' ≠ Some (key, next)).
Proof.
  intros Hreach Hi Hc st'.
  pose proof (reachable_Inv _ Hreach) as HI.
  assert (reachable st') as Hreach'.
  { eapply reachable_step; [exact Hreach |]. by apply (step_settle st i). }
  pose proof (reachable_Inv _ Hreach') as HI'.
  assert (files st' = updateFile fileId (FileItem.with_status Pending) (files st) ∧
          queueRef st' = (queueRef st ++ [fileId])%list ∧
          cooldownKeysRef st' = <[key := now + 30000]> (cooldownKeysRef st) ∧
          activeKeysRef st' = activeKeysRef st ∖ {[key]}) as (Hf & Hq & Hcd & Hk).
  { destruct (resumeWorker_keyError workerId fileId key error now (take_task i st) Hc)
      as (? & ? & ? & ? & _). split_and!; assumption. }
  clearbody st'.
  pose proof (lookup_await_inFlight _ _ _ _ _ Hi) as Hheld.
  assert (fileId ∈ inFlightIds st) as Hid by (apply elem_of_inFlightIds; eauto).
  assert (coolingDown key (now + 30000) st') as Hcool.
  { split; [rewrite Hcd; apply lookup_insert_eq |].
    intros Hin. apply (inv_keys_busy _ HI') in Hin. rewrite Hk in Hin.
    apply elem_of_difference in Hin as [_ Hin]. apply Hin. by apply elem_of_singleton. }
  split_and!.
  - exact Hq.
  - intros Hin. pose proof (inv_work_nodup _ HI) as Hnd.
    apply NoDup_app in Hnd as (_ & Hdisj & _). by apply (Hdisj fileId).
  - pose proof (inv_work_nodup _ HI') as Hnd. by apply NoDup_app in Hnd as (? & _).
  - assert (fileId ∈ FileItem.id <$> files st) as (f & Heq & Hin)%list_elem_of_fmap.
    { apply (inv_work_known _ HI). apply elem_of_app. by right. }
    exists (FileItem.with_status Pending f). rewrite Hf. split; [|done].
    by apply updateFile_hit.
  - intros g Hg Hgid. rewrite Hf in Hg.
    apply updateFile_status_inv in Hg as (f & _ & Hid' & [[_ ->] | [Hne _]]); [done | | done].
    congruence.
  - rewrite Hk. intros [_ Hin]%elem_of_difference. apply Hin. by apply elem_of_singleton.
  - apply Hcool.
  - intros st'' Hrun.
    destruct (coolingDown_run _ _ _ _ Hrun Hcool) as [Hcd'' Hfree''].
    split_and!; auto.
    intros t Ht next Hsel. apply selectKey_free in Hsel as (_ & _ & Hexp).
    specialize (Hexp _ Hcd''). lia.
Qed.

(** ** Completion *)









Lemma run_reachable P st st' : run P st st' → reachable st → reachable st'.
Proof.
  induction 1 as [|ev st st' st'' _ Hstep _ IH]; [done |].
  intros Hr. apply IH. by eapply reachable_step.
Qed.








(** ** The sessions of [Scenario] *)

Import Scenario.

Lemma freshItems_keyed fs :
  NoDup (FileItem.id <$> fs) →
  Forall (λ f, FileItem.id f ≠ "" ∧ FileItem.status f = Pending) fs →
  freshItems fs keyed.
Proof. intros Hnd Hall. split; [exact Hnd | exact Hall]. Qed.

Lemma reachable_keyed : reachable keyed.
Proof. eapply reachable_step; [apply reachable_initial |]. by apply (step_keys initial ["k1"]). Qed.

Lemma reachable_loaded : reachable loaded.
Proof.
  eapply reachable_step; [apply reachable_keyed |].
  apply (step_upload keyed [item "a"; item "b"]); [done |].
  apply freshItems_keyed.
  - apply NoDup_cons. split; [|apply NoDup_singleton].
    intros Hin%list_elem_of_singleton. discriminate.
  - repeat constructor; discriminate.
Qed.

Lemma reachable_started : reachable started.
Proof. eapply reachable_step; [apply reachable_loaded |]. by apply step_start. Qed.

Lemma reachable_taken : reachable taken.
Proof.
  eapply reachable_step; [apply reachable_started |].
  by apply (step_spawn started 0 0 1 100).
Qed.

Lemma reachable_waiting : reachable waiting.
Proof.
  eapply reachable_step; [apply reachable_taken |].
  by apply (step_spawn taken 0 0 2 100).
Qed.

Lemma reachable_limited : reachable limited.
Proof.
  eapply reachable_step; [apply reachable_waiting |].
  by apply (step_settle waiting 0 1 "a" "k1" (Rejected "Error: 429 Too Many Requests") 200).
Qed.

Lemma reachable_single : reachable single.
Proof.
  eapply reachable_step; [apply reachable_keyed |].
  apply (step_upload keyed [item "a"]); [done |].
  apply freshItems_keyed; [apply NoDup_singleton | repeat constructor; discriminate].
Qed.

Lemma run_single : run whileProcessing single_started single_idle.
Proof.
  apply (run_more _ (EvSpawn 0 100) single_started single_taken); [done | |].
  { by apply (step_spawn single_started 0 0 1 100). }
  apply (run_more _ (EvSettle 1 (Resolved answer) 900) single_taken single_done); [done | |].
  { by apply (step_settle single_taken 1 1 "a" "k1" (Resolved answer) 900). }
  apply (run_more _ (EvSpawn 0 950) single_done single_idle); [done | |].
  { by apply (step_spawn single_done 0 0 2 950). }
  apply run_done.
Qed.

Example started_queue : queueRef started = ["a"; "b"].
Proof. reflexivity. Qed.

Example waiting_state :
  queueRef waiting = ["b"] ∧
  tasks waiting = [AwaitGenerate 1 "a" "k1"; CallSpawnWorker 1000 2].
Proof. split; reflexivity. Qed.

Example limited_state :
  queueRef limited = ["b"; "a"] ∧
  FileItem.status <$> files limited = [Pending; Pending] ∧
  cooldownKeysRef limited !! "k1" = Some 30200.
Proof. split_and!; reflexivity. Qed.

Example single_finished_state :
  processingRef single_finished = false ∧
  FileItem.status <$> files single_finished = [Completed].
Proof. split; reflexivity. Qed.

Lemma credentials_exclusive_and_cooled_witness :
  NoDup (inFlightKeys taken) ∧ ("k1" ∈ activeKeysRef taken).
Proof.
  destruct (credentials_exclusive_and_cooled taken reachable_taken) as (Hnd & Hbusy & _).
  split; [exact Hnd |]. apply Hbusy. left.
Defined.

Lemma queue_ids_unique_and_not_in_flight_witness :
  NoDup (queueRef limited) ∧ ("b" ∉ inFlightIds limited).
Proof.
  destruct (queue_ids_unique_and_not_in_flight limited reachable_limited) as (Hnd & Hq & _).
  split; [exact Hnd |]. apply Hq. left.
Defined.

Lemma key_error_requeues_and_cools_witness :
  isKeyError (JsString.toLowerCase "Error: 429 Too Many Requests") = true ∧
  queueRef limited = ["b"; "a"] ∧
  cooldownKeysRef limited !! "k1" = Some (200 + 30000).
Proof.
  split; [reflexivity |].
  destruct (key_error_requeues_and_cools waiting 0 1 "a" "k1"
              "Error: 429 Too Many Requests" 200 reachable_waiting eq_refl eq_refl)
    as (Hq & _ & _ & _ & _ & _ & Hcd & _).
  split; [exact Hq | exact Hcd].
Defined.


Lemma generation_result_defaults_witness :
  ∃ r, resultOfResponse categories (parseOnly sparseText sparseValue)
         (Some sparseText) None = Some r ∧
       isString (title (en (res_metadata r))) = true ∧
       keywords (en (res_metadata r)) = Val (JString "") ∧
       category (res_metadata r) = Val (JString "8").
Proof.
  eexists. split; [reflexivity |].
  destruct (generation_result_defaults categories (parseOnly sparseText sparseValue)
              (Some sparseText) None _ eq_refl)
    as (jsonText & p & cat & Ht & Hp & Hc & Htitle & Hkw & _ & _ & _ & Hunk & _).
  injection Ht as <-. injection Hp as <-. injection Hc as <-.
  destruct Htitle as (_ & _ & Hstr). destruct Hkw as (_ & Hempty & _).
  split_and!.
  - apply Hstr. left. reflexivity.
  - apply Hempty. reflexivity.
  - apply Hunk. intros (c & Hin & Heq).
    apply list_elem_of_singleton in Hin. subst c. discriminate.
Defined.

Lemma selectKey_round_robin_witness :
  selectKey 100 started = Some ("k1", 0%nat) ∧
  nextKeyIdxRef taken = 0%nat ∧
  selectKey 100 taken = None.
Proof.
  destruct (selectKey_round_robin 100 started) as (_ & Hsome & _ & Hstore).
  destruct (selectKey_round_robin 100 taken) as (_ & _ & Hnone & _).
  split_and!.
  - apply Hsome. exists 0%nat. split_and!; try reflexivity.
    + simpl. lia.
    + split; [apply not_elem_of_empty | reflexivity].
    + intros j key' Hj. lia.
  - destruct (Hstore 1%nat "a" ["b"] eq_refl eq_refl) as [_ Hptr]; [discriminate |].
    exact Hptr.
  - apply Hnone. intros key Hk [Hbusy _]. apply Hbusy.
    apply list_elem_of_singleton in Hk. subst key.
    apply elem_of_union_l. by apply elem_of_singleton.
Defined.

(** ** The executable event loop *)

Lemma exec_step ev st st' : exec ev st = Some st' ↔ step ev st st'.
Proof.
  split.
  - destruct ev; simpl; intros H.
    + destruct (processingRef st) eqn:Hp; [discriminate |]. injection H as <-.
      by apply step_start.
    + destruct (tasks st !! i) as [[d w | |]|] eqn:Hi; try discriminate.
      injection H as <-. by eapply step_spawn.
    + destruct (tasks st !! i) as [[| w f k |]|] eqn:Hi; try discriminate.
      injection H as <-. by apply step_settle.
    + destruct (tasks st !! i) as [[| | d]|] eqn:Hi; try discriminate.
      injection H as <-. by eapply step_completion.
    + destruct (processingRef st) eqn:Hp; [discriminate |]. injection H as <-.
      by apply step_retry.
    + destruct (processingRef st) eqn:Hp; [discriminate |]. injection H as <-.
      by apply step_delete.
    + destruct (processingRef st) eqn:Hp; [discriminate |]. injection H as <-.
      by apply step_clear.
    + destruct (processingRef st) eqn:Hp; [discriminate |].
      destruct (decide (freshItems newFiles st)); [|discriminate]. injection H as <-.
      by apply step_upload.
    + destruct (processingRef st) eqn:Hp; [discriminate |]. injection H as <-.
      by apply step_keys.
  - intros Hstep. destruct Hstep; simpl; rewrite ?H; try done.
    by rewrite decide_True.
Qed.

Lemma play_reachable evs st st' : reachable st → play evs st = Some st' → reachable st'.
Proof.
  revert st. induction evs as [|ev evs IH]; simpl; intros st Hr H.
  - by injection H as <-.
  - destruct (exec ev st) as [st1|] eqn:He; [|discriminate].
    apply (IH st1); [|done]. eapply reachable_step; [exact Hr |]. by apply exec_step.
Qed.

Lemma reachable_beforeFailure : reachable beforeFailure.
Proof.
  apply (play_reachable toFailure initial); [apply reachable_initial |].
  vm_compute. reflexivity.
Qed.

(** C5 as stated fails: the credential "k1" fails with a 429 at time 200 and
    cools until 30200, yet after the run has ended and the key list has been
    entered again, the worker of the next run takes "k1" at time 5000. *)
Lemma cooldown_dropped_with_key_list :
  reachable beforeFailure ∧
  tasks beforeFailure !! 0%nat = Some (AwaitGenerate 1 "a" "k1") ∧
  isKeyError (JsString.toLowerCase "Error: 429 Too Many Requests") = true ∧
  cooldownKeysRef failed429 !! "k1" = Some (200 + 30000) ∧
  play afterFailure failed429 = Some restarted ∧
  Forall (readsClockUpTo (200 + 30000)) afterFailure ∧
  holds restarted "b" "k1".
Proof.
  split_and!.
  - apply reachable_beforeFailure.
  - vm_compute. reflexivity.
  - vm_compute. reflexivity.
  - vm_compute. reflexivity.
  - vm_compute. reflexivity.
  - unfold afterFailure. repeat constructor; simpl; lia.
  - unfold holds. apply elem_of_inFlight. exists 1%nat.
    assert (tasks restarted !! 3%nat = Some (AwaitGenerate 1 "b" "k1")) as H
      by (vm_compute; reflexivity).
    by eapply list_elem_of_lookup_2.
Qed.

(** * Further properties *)

(** ** The worker pool *)

Lemma spawnCalls_seq n : spawnCalls n = CallSpawnWorker 0 <$> seq 1 n.
Proof.
  unfold spawnCalls. rewrite <- (fmap_S_seq 0 n), <- list_fmap_compose.
  apply list_fmap_ext. intros ? i _. simpl. f_equal. lia.
Qed.

(** X1. A run that starts leaves one call of [spawnWorker] per worker in the
    event loop, numbered 1..n, where n is twice the number of credentials,
    at least 2 and at most 20. *)
Theorem worker_pool_size (st : Sched) :
  apiKeys st ≠ [] →
  List.filter isTarget (files st) ≠ [] →
  let n := maxConcurrency (apiKeys st) in
  (2 ≤ n ≤ 20)%nat ∧
  ((length (apiKeys st) ≤ 10)%nat → n = (2 * length (apiKeys st))%nat) ∧
  ((10 ≤ length (apiKeys st))%nat → n = 20%nat) ∧
  tasks (startProcessing st) = (tasks st ++ (CallSpawnWorker 0 <$> workerIds st))%list ∧
  length (workerIds st) = n ∧
  NoDup (workerIds st).
Proof.
  intros Hk Ht n.
  assert (length (apiKeys st) ≠ 0)%nat as Hlen by (destruct (apiKeys st); simpl; done).
  destruct (startProcessing_cases st) as [[_ [? | ?]] | (_ & _ & ->)]; [done | done |].
  subst n. unfold workerIds. rewrite length_seq. split_and!.
  - unfold maxConcurrency. lia.
  - unfold maxConcurrency. lia.
  - unfold maxConcurrency. lia.
  - unfold maxConcurrency. lia.
  - cbn [tasks set_tasks seedRun set_activeKeys set_queue set_activeWorkers
         set_processing set_files apiKeys]. by rewrite spawnCalls_seq.
  - done.
  - apply NoDup_seq.
Qed.

Lemma worker_pool_size_witness :
  tasks (startProcessing loaded) = [CallSpawnWorker 0 1; CallSpawnWorker 0 2].
Proof.
  destruct (worker_pool_size loaded) as (_ & _ & _ & Ht & _).
  - discriminate.
  - discriminate.
  - exact Ht.
Defined.

(** ** The success path *)

(** X2. When the call of a worker in flight returns a result, the item
    exists, becomes Completed with the returned metadata and thumbnail and
    is neither queued nor in flight any more; the other items, the queue
    and the cooldowns are untouched, and the credential is released. *)
Theorem success_completes_item (st : Sched) (i workerId : nat)
    (fileId key : string) (r : GenerationResult) (now : Z) :
  reachable st →
  tasks st !! i = Some (AwaitGenerate workerId fileId key) →
  let st' := resumeWorker workerId fileId key (Resolved r) now (take_task i st) in
  (∃ f, f ∈ files st' ∧ FileItem.id f = fileId) ∧
  (∀ f, f ∈ files st' → FileItem.id f = fileId →
        FileItem.status f = Completed ∧ FileItem.metadata f = res_metadata r ∧
        FileItem.thumbnail f = res_thumbnail r) ∧
  (∀ f, f ∈ files st → FileItem.id f ≠ fileId → f ∈ files st') ∧
  queueRef st' = queueRef st ∧
  cooldownKeysRef st' = cooldownKeysRef st ∧
  (key ∉ activeKeysRef st') ∧
  activeWorkersRef st' = activeWorkersRef st - 1 ∧
  (fileId ∉ queueRef st') ∧
  (fileId ∉ inFlightIds st').
Proof.
  intros Hreach Hi st'.
  pose proof (reachable_Inv _ Hreach) as HI.
  assert (reachable st') as Hreach'.
  { eapply reachable_step; [exact Hreach |]. by apply (step_settle st i). }
  pose proof (reachable_Inv _ Hreach') as HI'.
  assert (files st' = updateFile fileId (FileItem.completed r) (files st)) as Hf by done.
  assert (queueRef st' = queueRef st) as Hq by done.
  assert (activeKeysRef st' = activeKeysRef st ∖ {[key]}) as Hk by done.
  assert (inFlight (tasks st') = inFlight (delete i (tasks st))) as Hfl.
  { subst st'. simpl. by rewrite inFlight_snoc_other. }
  pose proof (lookup_await_inFlight _ _ _ _ _ Hi) as Hheld.
  pose proof (inFlight_delete_await _ _ _ _ _ Hi) as Hperm.
  pose proof (inv_work_nodup _ HI) as Hnd.
  split_and!; try done.
  - assert (fileId ∈ FileItem.id <$> files st) as (f & Heq & Hin)%list_elem_of_fmap.
    { apply (inv_work_known _ HI), elem_of_app. right.
      apply elem_of_inFlightIds. eauto. }
    exists (FileItem.completed r f). rewrite Hf. split; [|done].
    by apply updateFile_hit.
  - intros g Hg Hgid. rewrite Hf in Hg.
    apply updateFile_status_inv in Hg as (f & _ & Hid' & [[_ ->] | [Hne _]]); [done | | done].
    congruence.
  - intros f Hin Hne. rewrite Hf. by apply updateFile_other.
  - rewrite Hk. intros [_ Hin]%elem_of_difference. apply Hin. by apply elem_of_singleton.
  - rewrite Hq. apply NoDup_app in Hnd as (_ & Hdisj & _).
    intros Hin. apply (Hdisj _ Hin). apply elem_of_inFlightIds. eauto.
  - unfold inFlightIds in *. rewrite Hfl. rewrite Hperm in Hnd. simpl in Hnd.
    rewrite <- Permutation_middle in Hnd. apply NoDup_cons in Hnd as [Hnotin _].
    intros Hin. apply Hnotin, elem_of_app. by right.
Qed.

Lemma success_completes_item_witness :
  FileItem.status <$> files single_done = [Completed] ∧ queueRef single_done = [].
Proof.
  destruct (success_completes_item single_taken 1 1 "a" "k1" answer 900)
    as (_ & Hc & _ & Hq & _).
  - eapply reachable_step; [|by apply (step_spawn single_started 0 0 1 100)].
    eapply reachable_step; [apply reachable_single | by apply step_start].
  - reflexivity.
  - split; [reflexivity | exact Hq].
Defined.

(** ** Bookkeeping of a run *)



(** ** The credential pool *)

Lemma selectKey_next_bound now st key next :
  selectKey now st = Some (key, next) → (next < length (apiKeys st))%nat.
Proof.
  intros (i & Hi & _ & _ & -> & _)%selectKey_Some_iff.
  apply Nat.mod_upper_bound. lia.
Qed.

Lemma checkCompletion_pool st :
  apiKeys (checkCompletion st) = apiKeys st ∧
  nextKeyIdxRef (checkCompletion st) = nextKeyIdxRef st.
Proof. by destruct (checkCompletion_cases st) as [[_ ->] | [_ ->]]. Qed.

Lemma spawnWorker_pool workerId now st :
  apiKeys (spawnWorker workerId now st) = apiKeys st ∧
  (nextKeyIdxRef (spawnWorker workerId now st) = nextKeyIdxRef st ∨
   ∃ key, selectKey now st = Some (key, nextKeyIdxRef (spawnWorker workerId now st))).
Proof.
  destruct (spawnWorker_cases workerId now st)
    as [[_ ->] | [(_ & _ & ->) | [(_ & rest & _ & ->) | [Hc | Hc]]]].
  - auto.
  - destruct (checkCompletion_pool st) as [-> ->]. auto.
  - destruct (checkCompletion_pool (set_queue rest st)) as [-> ->]. auto.
  - destruct Hc as (_ & f & rest & next & _ & _ & [[_ ->] | Hs] & ->); simpl; eauto.
  - destruct Hc as (_ & f & rest & k & next & _ & _ & Hs & _ & ->). simpl. eauto.
Qed.

Lemma step_apiKeys ev st st' :
  step ev st st' →
  apiKeys st' = apiKeys st ∨ ∃ keys, ev = EvSetApiKeys keys ∧ processingRef st = false.
Proof.
  intros Hstep. destruct Hstep; try (by left).
  - left. by destruct (startProcessing_cases st) as [[-> _] | (_ & _ & ->)].
  - left. by destruct (spawnWorker_pool workerId now (take_task i st)) as [-> _].
  - left. by destruct (resumeWorker_frame workerId fileId key o now (take_task i st))
      as (-> & _).
  - left. unfold completionCallback. by destruct (_ && _).
  - right. eauto.
Qed.

Lemma PoolInv_initial : PoolInv initial.
Proof.
  constructor; [by left |]. unfold inFlightKeys. simpl. intros; absurd_nil.
Qed.

Lemma PoolInv_step ev st st' : Inv st → PoolInv st → step ev st st' → PoolInv st'.
Proof.
  intros HI [Hptr Hheld] Hstep. split.
  - destruct Hstep; try done.
    + by destruct (startProcessing_cases st) as [[-> _] | (_ & _ & ->)].
    + destruct (spawnWorker_pool workerId now (take_task i st)) as [-> [-> | [key Hs]]];
        [done |].
      right. by apply selectKey_next_bound in Hs.
    + by destruct (resumeWorker_frame workerId fileId key o now (take_task i st))
        as (-> & _ & _ & _ & -> & _).
    + unfold completionCallback. by destruct (_ && _).
    + by left.
  - intros key (fileId & Hin)%elem_of_inFlightKeys.
    destruct (step_inFlight _ _ _ _ _ Hstep Hin)
      as [Hold | (i & now & next & rest & -> & _ & _ & Hsel)].
    + assert (key ∈ inFlightKeys st) as Hk by (apply elem_of_inFlightKeys; eauto).
      destruct (step_apiKeys _ _ _ Hstep) as [-> | (keys & _ & Hidle)]; [by apply Hheld |].
      destruct (inv_idle _ HI Hidle) as [_ Hnil]. rewrite Hnil in Hold. absurd_nil.
    + destruct (step_apiKeys _ _ _ Hstep) as [-> | (keys & [=] & _)].
      by apply selectKey_free in Hsel as (? & _).
Qed.

Lemma reachable_PoolInv st : reachable st → PoolInv st.
Proof.
  induction 1 as [|ev st st' Hr IH Hstep]; [apply PoolInv_initial |].
  eapply PoolInv_step; eauto. by apply reachable_Inv.
Qed.

(** X4. The in-flight counter always equals the number of workers suspended
    at the generation call; that number exceeds neither the number of
    credentials nor the number of items; and between runs the queue is
    empty, nobody is in flight and no item is Processing. *)
Theorem counter_counts_workers_in_flight (st : Sched) :
  reachable st →
  activeWorkersRef st = Z.of_nat (length (inFlight (tasks st))) ∧
  (length (inFlight (tasks st)) ≤ length (apiKeys st))%nat ∧
  (length (inFlight (tasks st)) ≤ length (files st))%nat ∧
  (processingRef st = false →
   queueRef st = [] ∧ inFlight (tasks st) = [] ∧ activeWorkersRef st = 0 ∧
   ∀ f, f ∈ files st → FileItem.status f ≠ Processing).
Proof.
  intros Hreach.
  pose proof (reachable_Inv _ Hreach) as HI.
  pose proof (reachable_PoolInv _ Hreach) as HP.
  split_and!.
  - apply HI.
  - replace (length (inFlight (tasks st))) with (length (inFlightKeys st))
      by (unfold inFlightKeys; apply length_fmap).
    apply submseteq_length, NoDup_submseteq; [apply HI | apply HP].
  - replace (length (inFlight (tasks st))) with (length (inFlightIds st))
      by (unfold inFlightIds; apply length_fmap).
    replace (length (files st)) with (length (FileItem.id <$> files st))
      by apply length_fmap.
    apply submseteq_length, NoDup_submseteq.
    + pose proof (inv_work_nodup _ HI) as Hnd. by apply NoDup_app in Hnd as (_ & _ & ?).
    + intros x Hx. apply (inv_work_known _ HI), elem_of_app. by right.
  - intros Hp. destruct (inv_idle _ HI Hp) as [Hq Hnil]. split_and!; auto.
    + rewrite (inv_counter _ HI), Hnil. done.
    + intros f Hf. by eapply Inv_idle_not_processing.
Qed.

Lemma counter_counts_workers_in_flight_witness :
  activeWorkersRef waiting = 1 ∧ (length (inFlight (tasks waiting)) ≤ 1)%nat.
Proof.
  destruct (counter_counts_workers_in_flight waiting reachable_waiting) as (Hc & Hk & _).
  split; [exact Hc | exact Hk].
Defined.

(** X5. In every reachable state the rotation pointer is a position of the
    key list (0 when the list is empty), and every credential held by a
    worker belongs to the key list. *)
Theorem rotation_pointer_in_range (st : Sched) :
  reachable st →
  (nextKeyIdxRef st = 0%nat ∨ (nextKeyIdxRef st < length (apiKeys st))%nat) ∧
  (∀ fileId key, holds st fileId key → key ∈ apiKeys st).
Proof.
  intros [Hptr Hheld]%reachable_PoolInv. split; [done |].
  intros fileId key Hh. apply Hheld, elem_of_inFlightKeys. eauto.
Qed.

Lemma rotation_pointer_in_range_witness :
  nextKeyIdxRef restarted = 1%nat ∧ (1 < length (apiKeys restarted))%nat.
Proof.
  destruct (rotation_pointer_in_range restarted) as [[H0 | Hlt] _].
  - apply (play_reachable afterFailure failed429); [|vm_compute; reflexivity].
    eapply reachable_step; [apply reachable_beforeFailure |].
    by apply (step_settle beforeFailure 0 1 "a" "k1"
                (Rejected "Error: 429 Too Many Requests") 200).
  - exfalso. revert H0. vm_compute. discriminate.
  - split; [vm_compute; reflexivity | exact Hlt].
Defined.

(** X6. A worker that pops an item while some credential of a list of
    non-empty keys is eligible takes the first eligible one in rotation
    order: the item leaves the queue and becomes Processing, the credential
    is marked busy, the counter grows by one and the worker is suspended at
    the generation call. *)
Theorem free_key_is_dispatched (workerId : nat) (now : Z) (st : Sched)
    (fileId : string) (rest : list string) :
  processingRef st = true →
  queueRef st = fileId :: rest →
  fileId ≠ "" →
  (∀ key, key ∈ apiKeys st → key ≠ "") →
  (∃ key, key ∈ apiKeys st ∧
          eligible (activeKeysRef st) (purgeExpired now (cooldownKeysRef st)) key) →
  ∃ key next,
    selectKey now st = Some (key, next) ∧
    key ∈ apiKeys st ∧
    eligible (activeKeysRef st) (purgeExpired now (cooldownKeysRef st)) key ∧
    let st' := spawnWorker workerId now st in
    st' = dispatched workerId now fileId rest key next st ∧
    queueRef st' = rest ∧
    key ∈ activeKeysRef st' ∧
    activeWorkersRef st' = activeWorkersRef st + 1 ∧
    tasks st' = (tasks st ++ [AwaitGenerate workerId fileId key])%list ∧
    (∀ f, f ∈ files st → FileItem.id f = fileId →
          FileItem.with_status Processing f ∈ files st').
Proof.
  intros Hp Hq Hid Hkeys (k0 & Hk0 & He0).
  destruct (spawnWorker_cases workerId now st)
    as [[Hp' _] | [(_ & Hq' & _) | [(_ & rest' & Hq' & _) | [Hc | Hc]]]];
    try congruence.
  - exfalso. destruct Hc as (_ & f & r & next & _ & _ & [[Hnone _] | Hs] & _).
    + by apply (proj1 (selectKey_None_iff _ _) Hnone k0).
    + apply selectKey_free in Hs as (Hin & _). by apply (Hkeys "").
  - destruct Hc as (_ & f & r & key & next & Hq'' & _ & Hs & _ & Heq).
    rewrite Hq in Hq''. injection Hq'' as <- <-.
    exists key, next.
    pose proof Hs as (i & _ & Hlk & Hel & _)%selectKey_Some_iff.
    split_and!; auto.
    + by eapply list_elem_of_lookup_2.
    + rewrite Heq. simpl. split_and!; auto.
      * apply elem_of_union_l. by apply elem_of_singleton.
      * intros g Hg Hgid. by apply updateFile_hit.
Qed.

Lemma free_key_is_dispatched_witness :
  queueRef (spawnWorker 1 100 started) = ["b"] ∧
  tasks (spawnWorker 1 100 started) =
    [CallSpawnWorker 0 1; CallSpawnWorker 0 2; AwaitGenerate 1 "a" "k1"].
Proof.
  destruct (free_key_is_dispatched 1 100 started "a" ["b"])
    as (key & next & Hs & _ & _ & _ & Hq & _ & _ & Ht & _).
  - reflexivity.
  - reflexivity.
  - discriminate.
  - intros key Hk. apply list_elem_of_singleton in Hk. subst key. discriminate.
  - exists "k1". split; [left |]. split; [apply not_elem_of_empty | reflexivity].
  - assert (selectKey 100 started = Some ("k1", 0%nat)) as Hs' by reflexivity.
    rewrite Hs' in Hs. injection Hs as <- <-. split; [exact Hq | exact Ht].
Defined.

(** X7. The end of a cooldown is exact: a credential of the list that is
    not busy and cools until [expiry] is never returned by a scan with
    [now <= expiry], and makes every scan with [expiry < now] succeed; in a
    pool of that single credential the scan returns it exactly when
    [expiry < now]. *)
Theorem cooldown_ends_after_expiry (now expiry : Z) (st : Sched) (key : string) :
  key ∈ apiKeys st →
  key ∉ activeKeysRef st →
  cooldownKeysRef st !! key = Some expiry →
  (now ≤ expiry → ∀ next, selectKey now st ≠ Some (key, next)) ∧
  (expiry < now → ∃ key' next, selectKey now st = Some (key', next)) ∧
  (apiKeys st = [key] → (selectKey now st = Some (key, 0%nat) ↔ expiry < now)).
Proof.
  intros Hin Hfree Hcool.
  assert (expiry < now →
          eligible (activeKeysRef st) (purgeExpired now (cooldownKeysRef st)) key) as Hel.
  { intros Hlt. split; [done |]. apply purgeExpired_lookup_None.
    intros e He. rewrite Hcool in He. injection He as <-. done. }
  assert (expiry < now → ∃ key' next, selectKey now st = Some (key', next)) as Hsome.
  { intros Hlt. destruct (selectKey now st) as [[k n]|] eqn:Hs; [eauto |].
    exfalso. by apply (proj1 (selectKey_None_iff _ _) Hs key Hin), Hel. }
  split_and!; [| exact Hsome |].
  - intros Hle next Hs. apply selectKey_free in Hs as (_ & _ & Hexp).
    specialize (Hexp _ Hcool). lia.
  - intros Hsingle. split.
    + intros Hs. apply selectKey_free in Hs as (_ & _ & Hexp). by apply Hexp.
    + intros Hlt. destruct (Hsome Hlt) as (k & n & Hs). rewrite Hs.
      pose proof Hs as (Hk & _)%selectKey_free.
      pose proof Hs as Hn%selectKey_next_bound.
      rewrite Hsingle in Hk, Hn. apply list_elem_of_singleton in Hk. subst k.
      simpl in Hn. f_equal. f_equal. lia.
Qed.

Lemma cooldown_ends_after_expiry_witness :
  (∀ next, selectKey 30200 limited ≠ Some ("k1", next)) ∧
  selectKey 30201 limited = Some ("k1", 0%nat).
Proof.
  destruct (cooldown_ends_after_expiry 30200 30200 limited "k1") as (Hnot & _).
  - left.
  - vm_compute. set_solver.
  - vm_compute. reflexivity.
  - destruct (cooldown_ends_after_expiry 30201 30200 limited "k1") as (_ & _ & Hone).
    + left.
    + vm_compute. set_solver.
    + vm_compute. reflexivity.
    + split; [apply Hnot; lia | apply Hone; [reflexivity | lia]].
Defined.

(** ** Rotation *)

Lemma slot_last_wraps (keys : list string) idx i :
  (idx < length keys)%nat → (i < length keys)%nat →
  slot keys ((idx + 1) mod length keys) i = idx → i = (length keys - 1)%nat.
Proof.
  unfold slot. set (n := length keys). intros Hidx Hi Heq.
  rewrite Nat.Div0.add_mod_idemp_l in Heq.
  pose proof (Nat.div_mod_eq (idx + 1 + i) n) as Hdm. rewrite Heq in Hdm.
  assert ((idx + 1 + i) / n = 1)%nat as Hq; [|nia].
  destruct ((idx + 1 + i) / n)%nat as [|[|q]]; [nia | done | nia].
Qed.

(** X8. Rotation is fair: with pairwise distinct keys, when the scan that
    follows the hand-out of a credential returns that same credential
    again, no other credential of the list was eligible. *)
Theorem rotation_skips_last_key (now1 now2 : Z) (st1 st2 : Sched)
    (key : string) (next1 next2 : nat) :
  NoDup (apiKeys st1) →
  selectKey now1 st1 = Some (key, next1) →
  apiKeys st2 = apiKeys st1 →
  nextKeyIdxRef st2 = next1 →
  selectKey now2 st2 = Some (key, next2) →
  ∀ other, other ∈ apiKeys st2 → other ≠ key →
           ¬ eligible (activeKeysRef st2) (purgeExpired now2 (cooldownKeysRef st2)) other.
Proof.
  intros Hnd Hs1 Hkeys Hptr Hs2 other Hin Hne.
  apply selectKey_Some_iff in Hs1 as (i1 & Hi1 & Hk1 & _ & Hnext & _).
  apply selectKey_Some_iff in Hs2 as (i2 & Hi2 & Hk2 & _ & _ & Hfirst).
  rewrite Hkeys, Hptr, Hnext in *. clear Hkeys Hptr Hnext.
  set (keys := apiKeys st1) in *. set (idx := slot keys (nextKeyIdxRef st1) i1) in *.
  assert (idx < length keys)%nat as Hidx by (by eapply lookup_lt_Some).
  assert (slot keys ((idx + 1) mod length keys) i2 = idx) as Hwrap.
  { eapply NoDup_lookup; eauto. }
  apply slot_last_wraps in Hwrap; [|done..].
  apply list_elem_of_lookup in Hin as [pos Hpos].
  destruct (slot_surjective keys ((idx + 1) mod length keys) pos) as (j & Hj & Hsj).
  { by eapply lookup_lt_Some. }
  apply (Hfirst j other); [|by rewrite Hsj].
  assert (j ≠ i2); [|lia]. intros ->.
  rewrite Hsj in Hk2. congruence.
Qed.

Lemma rotation_skips_last_key_witness :
  selectKey 100 twoKeys = Some ("k1", 1%nat) ∧
  selectKey 300 twoKeysSecondBusy = Some ("k1", 1%nat) ∧
  ¬ eligible (activeKeysRef twoKeysSecondBusy)
      (purgeExpired 300 (cooldownKeysRef twoKeysSecondBusy)) "k2".
Proof.
  assert (selectKey 100 twoKeys = Some ("k1", 1%nat)) as H1 by (vm_compute; reflexivity).
  assert (selectKey 300 twoKeysSecondBusy = Some ("k1", 1%nat)) as H2
    by (vm_compute; reflexivity).
  split_and!; [exact H1 | exact H2 |].
  apply (rotation_skips_last_key 100 300 twoKeys twoKeysSecondBusy "k1" 1 1).
  - apply NoDup_cons. split; [|apply NoDup_singleton].
    intros Hin%list_elem_of_singleton. discriminate.
  - exact H1.
  - reflexivity.
  - reflexivity.
  - exact H2.
  - right. left.
  - discriminate.
Defined.

(** ** Classification of errors *)

Lemma app_cons a s t : String a s +:+ t = String a (s +:+ t).
Proof. reflexivity. Qed.

Lemma app_nil_l_str s : "" +:+ s = s.
Proof. reflexivity. Qed.

Lemma app_assoc_str s t u : (s +:+ t) +:+ u = s +:+ t +:+ u.
Proof. induction s as [|a s IH]; [done |]. by rewrite !app_cons, IH. Qed.

Lemma app_nil_r_str s : s +:+ "" = s.
Proof. induction s as [|a s IH]; [done |]. by rewrite app_cons, IH. Qed.

Lemma startsWith_spec p s : JsString.startsWith p s = true ↔ ∃ post, s = p +:+ post.
Proof.
  revert s. induction p as [|a p IH]; intros s; simpl.
  - split; [eauto | done].
  - destruct s as [|b s].
    + split; [done | intros [post H]; discriminate].
    + destruct (Ascii.eqb_spec a b) as [-> | Hne].
      * rewrite IH. split; intros [post H]; exists post.
        -- by rewrite app_cons, H.
        -- rewrite app_cons in H. by injection H.
      * split; [done |]. intros [post H]. rewrite app_cons in H. congruence.
Qed.

Lemma includes_spec s p :
  JsString.includes s p = true ↔ ∃ pre post, s = pre +:+ p +:+ post.
Proof.
  induction s as [|a s IH]; simpl.
  - destruct (JsString.startsWith p "") eqn:Hsw.
    + split; [|done]. intros _. apply startsWith_spec in Hsw as [post ->]. by exists "", post.
    + split; [done |]. intros (pre & post & H). exfalso.
      destruct pre; [|discriminate].
      assert (JsString.startsWith p "" = true); [|congruence].
      apply startsWith_spec. eauto.
  - destruct (JsString.startsWith p (String a s)) eqn:Hsw.
    + split; [|done]. intros _. apply startsWith_spec in Hsw as [post ->]. by exists "", post.
    + rewrite IH. split.
      * intros (pre & post & ->). by exists (String a pre), post.
      * intros (pre & post & H). destruct pre as [|b pre].
        -- exfalso. assert (JsString.startsWith p (String a s) = true); [|congruence].
           apply startsWith_spec. exists post. by rewrite H.
        -- rewrite app_cons in H. injection H as -> ->. eauto.
Qed.

Lemma toLowerCase_app s t :
  JsString.toLowerCase (s +:+ t) = JsString.toLowerCase s +:+ JsString.toLowerCase t.
Proof. induction s as [|a s IH]; [done |]. simpl. by rewrite !app_cons, IH. Qed.

Lemma isKeyError_spec msg :
  isKeyError msg = true ↔
  ∃ marker pre post, marker ∈ keyErrorMarkers ∧ msg = pre +:+ marker +:+ post.
Proof.
  unfold isKeyError, keyErrorMarkers.
  rewrite !orb_true_iff, !includes_spec. split.
  - intros [[[[[H | H] | H] | H] | H] | H]; destruct H as (pre & post & ->);
      eexists _, pre, post; (split; [|reflexivity]); set_solver.
  - intros (marker & pre & post & Hin & ->).
    repeat (apply elem_of_cons in Hin as [-> | Hin]); [naive_solver..|].
    by apply elem_of_nil in Hin.
Qed.

(** X9. An error is of the credential class exactly when its text, lower
    cased, contains one of the six markers; so a marker written in any
    letter case anywhere in the error text is enough. *)
Theorem key_error_is_case_insensitive_substring (error : string) :
  (isKeyError (JsString.toLowerCase error) = true ↔
   ∃ marker pre post, marker ∈ keyErrorMarkers ∧
                      JsString.toLowerCase error = pre +:+ marker +:+ post) ∧
  (∀ pre word post,
     error = pre +:+ word +:+ post →
     JsString.toLowerCase word ∈ keyErrorMarkers →
     isKeyError (JsString.toLowerCase error) = true).
Proof.
  split; [apply isKeyError_spec |].
  intros pre word post -> Hin. apply isKeyError_spec.
  exists (JsString.toLowerCase word), (JsString.toLowerCase pre), (JsString.toLowerCase post).
  split; [done |]. by rewrite !toLowerCase_app.
Qed.

Lemma key_error_is_case_insensitive_substring_witness :
  isKeyError (JsString.toLowerCase "ApiError: Model is OVERLOADED, retry later") = true.
Proof.
  destruct (key_error_is_case_insensitive_substring
              "ApiError: Model is OVERLOADED, retry later") as [_ H].
  apply (H "ApiError: Model is " "OVERLOADED" ", retry later"); [reflexivity |].
  vm_compute. set_solver.
Defined.

(** ** The key field *)

Section KeyPanelFacts.
Import KeyPanel.

Lemma splitGo_noSeparator cur inRun s t :
  noSeparator cur = true → t ∈ splitGo cur inRun s → noSeparator t = true.
Proof.
  revert cur inRun. induction s as [|c s IH]; intros cur inRun Hcur; simpl.
  - by intros ->%list_elem_of_singleton.
  - destruct (isKeySeparator c) eqn:Hc.
    + destruct inRun; [by apply IH |].
      intros [-> | Hin]%elem_of_cons; [done | by apply (IH "" true)].
    + apply IH. clear IH. induction cur as [|a cur IHc]; simpl in *.
      * by rewrite Hc.
      * apply andb_true_iff in Hcur as [-> Hcur]. simpl. by apply IHc.
Qed.

Lemma trimStart_suffix s : ∃ pre, s = pre +:+ trimStart s.
Proof.
  induction s as [|c s [pre IH]]; simpl; [by exists "" |].
  destruct (Ascii.is_space c); [|by exists ""].
  exists (String c pre). by rewrite app_cons, <- IH.
Qed.

Lemma trimEnd_prefix s : ∃ post, s = trimEnd s +:+ post.
Proof.
  induction s as [|c s [post IH]]; simpl; [by exists "" |].
  destruct (trimEnd s) as [|a t] eqn:Ht.
  - destruct (Ascii.is_space c).
    + by exists (String c s).
    + exists s. reflexivity.
  - exists post. by rewrite app_cons, <- IH.
Qed.

Lemma noSeparator_app s t :
  noSeparator (s +:+ t) = (noSeparator s && noSeparator t)%bool.
Proof.
  induction s as [|c s IH]; [done |]. rewrite app_cons. simpl. rewrite IH.
  by rewrite andb_assoc.
Qed.

Lemma trim_noSeparator s : noSeparator s = true → noSeparator (trim s) = true.
Proof.
  intros Hs. unfold trim.
  destruct (trimStart_suffix s) as [pre Hpre].
  destruct (trimEnd_prefix (trimStart s)) as [post Hpost].
  rewrite Hpre, Hpost, !noSeparator_app in Hs.
  apply andb_true_iff in Hs as [_ Hs]. by apply andb_true_iff in Hs as [? _].
Qed.

(** A string is [headOk] when it does not start with white space. *)
Lemma trimStart_fixed s :
  match s with String c _ => Ascii.is_space c = false | "" => True end →
  trimStart s = s.
Proof. destruct s as [|c s]; simpl; [done |]. by intros ->. Qed.

Lemma trimStart_head s :
  match trimStart s with String c _ => Ascii.is_space c = false | "" => True end.
Proof.
  induction s as [|c s IH]; simpl; [done |].
  destruct (Ascii.is_space c) eqn:Hc; [done |]. by simpl.
Qed.

Lemma trimEnd_head s :
  match s with String c _ => Ascii.is_space c = false | "" => True end →
  match trimEnd s with String c _ => Ascii.is_space c = false | "" => True end.
Proof.
  destruct s as [|c s]; simpl; [done |]. intros Hc.
  destruct (trimEnd s); [by rewrite Hc | done].
Qed.

Lemma trimEnd_idem s : trimEnd (trimEnd s) = trimEnd s.
Proof.
  induction s as [|c s IH]; simpl; [done |].
  destruct (trimEnd s) as [|a t] eqn:Ht.
  - destruct (Ascii.is_space c) eqn:Hc; simpl; [done |]. by rewrite Hc.
  - simpl in *. by rewrite IH.
Qed.

Lemma trim_idem s : trim (trim s) = trim s.
Proof.
  unfold trim. rewrite (trimStart_fixed (trimEnd (trimStart s))).
  - apply trimEnd_idem.
  - apply trimEnd_head, trimStart_head.
Qed.

Lemma elem_of_parseKeys text k :
  k ∈ parseKeys text ↔ k ≠ "" ∧ ∃ piece, piece ∈ splitRuns text ∧ k = trim piece.
Proof.
  unfold parseKeys. rewrite list_elem_of_In, filter_In, <- list_elem_of_In, list_elem_of_fmap.
  split.
  - intros [(piece & -> & Hin) Hlen]. split; [|eauto].
    intros Heq. rewrite Heq in Hlen. discriminate.
  - intros [Hne (piece & Hin & ->)]. split; [eauto |].
    destruct (trim piece); [done | reflexivity].
Qed.

Lemma parseKeys_clean text k : k ∈ parseKeys text → clean k.
Proof.
  intros [Hne (piece & Hin & ->)]%elem_of_parseKeys. split_and!; [done | apply trim_idem |].
  apply trim_noSeparator. by eapply (splitGo_noSeparator "" false text).
Qed.

(** X10. Whatever is typed in the key field, every key handed to the
    scheduler is non-empty, has no white space at either end and contains
    neither a comma nor a line break; a scan over such a list never returns
    a falsy key. *)
Theorem panel_keys_are_clean (text : string) (st : Sched) :
  let st' := handleChange text st in
  (∀ k, k ∈ apiKeys st' → k ≠ "" ∧ trim k = k ∧ noSeparator k = true) ∧
  cooldownKeysRef st' = ∅ ∧
  nextKeyIdxRef st' = 0%nat ∧
  (∀ now key next, selectKey now st' = Some (key, next) → JsString.falsy key = false).
Proof.
  intros st'. split_and!; try done.
  - intros k Hk. by apply (parseKeys_clean text).
  - intros now key next (Hin & _)%selectKey_free.
    apply falsy_false. by apply (parseKeys_clean text key).
Qed.

Lemma splitGo_piece k cur s :
  noSeparator k = true → splitGo cur false (k +:+ s) = splitGo (cur +:+ k) false s.
Proof.
  revert cur. induction k as [|c k IH]; intros cur Hk.
  - by rewrite app_nil_r_str.
  - simpl in Hk. apply andb_true_iff in Hk as [Hc Hk]. apply negb_true_iff in Hc.
    rewrite app_cons. simpl. rewrite Hc, IH by done.
    by rewrite app_assoc_str.
Qed.

Lemma splitGo_piece_inRun k s :
  k ≠ "" → noSeparator k = true → splitGo "" true (k +:+ s) = splitGo k false s.
Proof.
  destruct k as [|c k]; [done |]. intros _ Hk.
  simpl in Hk. apply andb_true_iff in Hk as [Hc Hk]. apply negb_true_iff in Hc.
  rewrite app_cons. simpl. rewrite Hc. rewrite splitGo_piece by done. done.
Qed.

Lemma splitRuns_joinLines keys inRun :
  keys ≠ [] → Forall clean keys →
  splitGo "" inRun (joinLines keys) = keys.
Proof.
  intros Hne Hall. revert inRun.
  induction Hall as [|k ks [Hk [_ Hsep]] Hks IH]; [done |]. intros inRun.
  assert (∀ s, splitGo "" inRun (k +:+ s) = splitGo k false s) as Hhead.
  { intros s. destruct inRun; [by apply splitGo_piece_inRun |].
    by rewrite splitGo_piece. }
  destruct ks as [|k2 ks].
  - unfold joinLines. simpl. rewrite <- (app_nil_r_str k) at 1. by rewrite Hhead.
  - change (joinLines (k :: k2 :: ks))
      with (k +:+ String (Ascii.ascii_of_nat 10) "" +:+ joinLines (k2 :: ks)).
    rewrite Hhead. rewrite app_cons. simpl. f_equal. by apply IH.
Qed.

(** X11. The field round-trips: for a list of clean keys (non-empty,
    trimmed, free of commas and line breaks) the text the field is filled
    with, [apiKeys.join('\n')], parses back to the same list; so parsing
    what was parsed changes nothing. *)
Theorem key_field_round_trip (keys : list string) :
  Forall clean keys →
  parseKeys (joinLines keys) = keys ∧
  ∀ text, parseKeys (joinLines (parseKeys text)) = parseKeys text.
Proof.
  assert (∀ ks, Forall clean ks →
                List.filter (λ k, negb (String.length k =? 0)%nat) (trim <$> ks) = ks) as Hid.
  { intros ks Hall. induction Hall as [|k' ks' [Hk [Htrim _]] _ IH]; [done |].
    simpl. rewrite Htrim. destruct k'; [done |]. simpl. f_equal. exact IH. }
  assert (∀ ks, Forall clean ks → parseKeys (joinLines ks) = ks) as Hrt.
  { intros ks Hall. unfold parseKeys, splitRuns.
    destruct ks as [|k ks]; [done |].
    rewrite splitRuns_joinLines by done. by apply Hid. }
  intros Hall. split; [by apply Hrt |].
  intros text. apply Hrt. apply Forall_forall. apply parseKeys_clean.
Qed.

End KeyPanelFacts.

Example handleChange_trims_and_drops_blanks :
  apiKeys (KeyPanel.handleChange " k1 ,, k2,  " initial) = ["k1"; "k2"].
Proof. reflexivity. Qed.

Lemma key_field_round_trip_witness :
  KeyPanel.parseKeys (KeyPanel.joinLines ["k1"; "key two"]) = ["k1"; "key two"].
Proof.
  apply (key_field_round_trip ["k1"; "key two"]).
  repeat constructor; discriminate.
Defined.

(** ** The settings form *)

Example parseInt_examples :
  ParseInt.parseInt "42" = Some 42 ∧
  ParseInt.parseInt "  -7px" = Some (-7) ∧
  ParseInt.parseInt "12.5" = Some 12 ∧
  ParseInt.parseInt "0x1F" = Some 31 ∧
  ParseInt.parseInt "" = None ∧
  ParseInt.parseInt "abc" = None.
Proof. split_and!; reflexivity. Qed.

Lemma clamp_spec hi n :
  0 ≤ hi →
  (if (if hi <? n then hi else n) <? 0 then 0 else if hi <? n then hi else n)
  = Z.max 0 (Z.min hi n).
Proof.
  intros Hhi. destruct (Z.ltb_spec hi n).
  - destruct (Z.ltb_spec hi 0); lia.
  - destruct (Z.ltb_spec n 0); lia.
Qed.

Lemma handleNumberChange_range field value settings :
  lengthsInRange settings → lengthsInRange (handleNumberChange field value settings).
Proof.
  unfold lengthsInRange, handleNumberChange. intros [Ht Hk].
  destruct field; simpl; rewrite clamp_spec by lia; lia.
Qed.

Lemma applySettingsEvent_range settings ev :
  lengthsInRange settings → lengthsInRange (applySettingsEvent settings ev).
Proof.
  intros H. destruct ev as [field value | field value | isProcessing type]; simpl.
  - by apply handleNumberChange_range.
  - by destruct field.
  - unfold handleTypeChange. by destruct isProcessing.
Qed.

(** X12. Whatever is typed into the form, the title length stays within
    0..100 and the keyword count within 0..50; a number field replaces its
    value by the parsed number cut to that range (0 when the text is not a
    number) and leaves every other setting alone. *)
Theorem settings_lengths_stay_in_range (evs : list SettingsEvent)
    (field : NumberField) (value : string) :
  let settings := editSettings evs in
  let settings' := handleNumberChange field value settings in
  lengthsInRange settings ∧
  lengthsInRange settings' ∧
  customTitle settings' = customTitle settings ∧
  customKeyword settings' = customKeyword settings ∧
  selectedFileType settings' = selectedFileType settings ∧
  csvFilename settings' = csvFilename settings ∧
  (ParseInt.parseInt value = None →
   match field with
   | SlideTitle => slideTitle settings' = 0
   | SlideKeyword => slideKeyword settings' = 0
   end) ∧
  (∀ n, ParseInt.parseInt value = Some n →
        match field with
        | SlideTitle =>
            slideTitle settings' = Z.max 0 (Z.min 100 n) ∧
            slideKeyword settings' = slideKeyword settings
        | SlideKeyword =>
            slideKeyword settings' = Z.max 0 (Z.min 50 n) ∧
            slideTitle settings' = slideTitle settings
        end).
Proof.
  intros settings settings'.
  assert (lengthsInRange settings) as Hr.
  { subst settings. unfold editSettings.
    assert (lengthsInRange initialSettings) as H0 by (unfold lengthsInRange; simpl; lia).
    revert H0. generalize initialSettings.
    induction evs as [|ev evs IH]; intros s Hs; simpl; [done |].
    apply IH. by apply applySettingsEvent_range. }
  split_and!; try done.
  - by apply handleNumberChange_range.
  - by destruct field.
  - by destruct field.
  - by destruct field.
  - by destruct field.
  - intros Hnan. subst settings'. unfold handleNumberChange. rewrite Hnan.
    by destruct field.
  - intros n Hn. subst settings'. unfold handleNumberChange. rewrite Hn.
    destruct field; simpl; rewrite clamp_spec by lia; done.
Qed.

Example handleNumberChange_examples :
  slideTitle (handleNumberChange SlideTitle "250" initialSettings) = 100 ∧
  slideTitle (handleNumberChange SlideTitle "-3" initialSettings) = 0 ∧
  slideTitle (handleNumberChange SlideTitle "" initialSettings) = 0 ∧
  slideKeyword (handleNumberChange SlideKeyword "51" initialSettings) = 50 ∧
  slideKeyword (handleNumberChange SlideKeyword "7" initialSettings) = 7.
Proof. split_and!; reflexivity. Qed.

(** ** The replies of the model *)

(** X13. The tail of [generateMetadataForFile] rejects exactly when the
    response has no text, the text is empty, the text does not parse, or it
    parses to [null]; every other reply succeeds and passes the thumbnail
    on, and a reply that is valid JSON but not an object (a number, a
    string, an array) yields blank texts with category "8" whatever the
    category table. *)
Theorem generation_rejects_exactly_on_unusable_reply (CATEGORIES : list Category)
    (JSON_parse : string → option JSON) (responseText thumbnail : option string) :
  (resultOfResponse CATEGORIES JSON_parse responseText thumbnail = None ↔
   responseText = None ∨ responseText = Some "" ∨
   ∃ jsonText, responseText = Some jsonText ∧
               (JSON_parse jsonText = None ∨ JSON_parse jsonText = Some JNull)) ∧
  (∀ r, resultOfResponse CATEGORIES JSON_parse responseText thumbnail = Some r →
        res_thumbnail r = thumbnail) ∧
  (∀ jsonText parsed,
     responseText = Some jsonText → jsonText ≠ "" →
     JSON_parse jsonText = Some parsed → parsed ≠ JNull → isObject parsed = false →
     resultOfResponse CATEGORIES JSON_parse responseText thumbnail =
       Some {| res_metadata := blankResult; res_thumbnail := thumbnail |}).
Proof.
  split_and!.
  - unfold resultOfResponse. destruct responseText as [jsonText|]; [|split; auto].
    destruct (JsString.falsy jsonText) eqn:Hf.
    { apply falsy_spec in Hf as ->. split; auto. }
    apply falsy_false in Hf.
    destruct (JSON_parse jsonText) as [parsed|] eqn:Hp.
    + unfold metadataOfParsed.
      destruct (getProp (Val parsed) "category") as [cat|] eqn:Hc.
      * split; [done |]. intros [H | [H | (t & H & [Hn | Hn])]]; [done | | |].
        -- injection H as H. by destruct Hf.
        -- injection H as <-. congruence.
        -- injection H as <-. rewrite Hp in Hn. injection Hn as ->. discriminate.
      * split; [|done]. intros _. right. right. exists jsonText. split; [done |].
        right. f_equal. destruct parsed; try discriminate. done.
    + split; [|done]. intros _. right. right. exists jsonText. auto.
  - intros r H.
    destruct (resultOfResponse_Some _ _ _ _ _ H) as (? & ? & ? & _ & _ & _ & _ & _ & Hth).
    exact Hth.
  - intros jsonText parsed -> Hne Hp Hnull Hobj. unfold resultOfResponse.
    apply falsy_false in Hne. rewrite Hne, Hp.
    assert (validCategory CATEGORIES Undefined = Val (JString "8")) as Hcat.
    { apply validCategory_spec. by intros (c & _ & ?). }
    destruct parsed; try done; unfold metadataOfParsed; simpl; by rewrite Hcat.
Qed.

Lemma generation_rejects_exactly_on_unusable_reply_witness :
  resultOfResponse categories (parseOnly "null" JNull) (Some "null") None = None ∧
  resultOfResponse categories (parseOnly "[]" (JArray [])) (Some "[]") None =
    Some {| res_metadata := blankResult; res_thumbnail := None |}.
Proof.
  destruct (generation_rejects_exactly_on_unusable_reply categories
              (parseOnly "null" JNull) (Some "null") None) as (Hrej & _).
  destruct (generation_rejects_exactly_on_unusable_reply categories
              (parseOnly "[]" (JArray [])) (Some "[]") None) as (_ & _ & Hblank).
  split.
  - apply Hrej. right. right. exists "null". split; [done |]. by right.
  - by apply (Hblank "[]" (JArray [])).
Defined.

(** ** Translation *)

(** X14. The translation service never fails: a rejected call, a text that
    does not parse and a reply that parses to [null] all give back the
    content unchanged; otherwise each field is the reply's value when it is
    truthy and the original field when it is not, so a reply without text
    (parsed as the empty object) changes nothing, and string fields stay
    strings when the reply holds strings or nothing. *)
Theorem translation_falls_back_to_content (JSON_parse : string → option JSON)
    (content : LocalizedContent) (reply : TranslateReply) :
  JSON_parse "{}" = Some (JObject []) →
  let result := translateMetadataContent JSON_parse content reply in
  (reply = CallRejected → result = content) ∧
  (reply = Replied None ∨ reply = Replied (Some "") → result = content) ∧
  (∀ text, reply = Replied (Some text) → text ≠ "" →
           JSON_parse text = None ∨ JSON_parse text = Some JNull → result = content) ∧
  (∀ text json, reply = Replied (Some text) → text ≠ "" →
                JSON_parse text = Some json → json ≠ JNull →
                title result = jsOr (getPropOpt (Val json) "title") (title content) ∧
                keywords result = jsOr (getPropOpt (Val json) "keywords") (keywords content)) ∧
  ((title result = title content ∨ truthy (title result) = true) ∧
   (keywords result = keywords content ∨ truthy (keywords result) = true)).
Proof.
  intros Hempty result. subst result. split_and!.
  - by intros ->.
  - intros [-> | ->]; simpl; rewrite Hempty; simpl; by destruct content.
  - intros text -> Hne%falsy_false [Hp | Hp]; simpl; by rewrite Hne, Hp.
  - intros text json -> Hne%falsy_false Hp Hnull. simpl. rewrite Hne, Hp.
    destruct json; done.
  - clear Hempty. unfold translateMetadataContent. destruct reply as [|text]; [auto |].
    destruct (JSON_parse _) as [json|]; [|auto].
    destruct (getProp (Val json) "title") as [t|]; [|auto].
    destruct (getProp (Val json) "keywords") as [k|]; [|auto].
    simpl. unfold jsOr. destruct (truthy t) eqn:Ht; auto.
  - clear Hempty. unfold translateMetadataContent. destruct reply as [|text]; [auto |].
    destruct (JSON_parse _) as [json|]; [|auto].
    destruct (getProp (Val json) "title") as [t|]; [|auto].
    destruct (getProp (Val json) "keywords") as [k|]; [|auto].
    simpl. unfold jsOr. destruct (truthy k) eqn:Hk; auto.
Qed.

Lemma translation_falls_back_to_content_witness :
  translateMetadataContent (parseOnly "{}" (JObject []))
    {| title := Val (JString "Red kite"); keywords := Val (JString "bird") |}
    (Replied None)
  = {| title := Val (JString "Red kite"); keywords := Val (JString "bird") |}.
Proof.
  destruct (translation_falls_back_to_content (parseOnly "{}" (JObject []))
              {| title := Val (JString "Red kite"); keywords := Val (JString "bird") |}
              (Replied None) eq_refl) as (_ & H & _).
  apply H. by left.
Defined.

(** ** Editing metadata *)

Lemma applyEdit_ids fileId field value language fs :
  FileItem.id <$> applyEdit fileId field value language fs = FileItem.id <$> fs.
Proof. by apply updateFile_ids. Qed.

Lemma applyEdit_statuses fileId field value language fs :
  FileItem.status <$> applyEdit fileId field value language fs = FileItem.status <$> fs.
Proof.
  unfold applyEdit, updateFile. rewrite <- list_fmap_compose.
  apply list_fmap_ext. intros ? f _. simpl.
  by destruct (String.eqb (FileItem.id f) fileId).
Qed.

(** X15. An edit of the metadata touches only the item with the given
    identifier and only its metadata: identifiers, statuses and all other
    items stay as they are, so between runs the scheduler's invariant is
    kept. A category edit leaves both language slots alone and requests no
    translation; a title or keywords edit changes only that field of the
    edited language; and no translation is requested without a key. *)
Theorem metadata_edit_is_local (st : Sched) (fileId : string) (field : MetaField)
    (value : string) (language : Language) :
  reachable st →
  processingRef st = false →
  let fs' := applyEdit fileId field value language (files st) in
  FileItem.id <$> fs' = FileItem.id <$> files st ∧
  FileItem.status <$> fs' = FileItem.status <$> files st ∧
  (∀ f, f ∈ files st → FileItem.id f ≠ fileId → f ∈ fs') ∧
  (∀ g, g ∈ fs' → FileItem.id g = fileId →
        ∃ f, f ∈ files st ∧ FileItem.id f = fileId ∧
             FileItem.metadata g = editMeta field value language (FileItem.metadata f)) ∧
  Inv (set_files fs' st) ∧
  (∀ m, otherSlotOf language (editMeta field value language m) = otherSlotOf language m ∧
        (field = FieldCategory →
         slotOf language (editMeta field value language m) = slotOf language m) ∧
        (field ≠ FieldCategory →
         category (editMeta field value language m) = category m) ∧
        (field = FieldTitle →
         title (slotOf language (editMeta field value language m)) = Val (JString value) ∧
         keywords (slotOf language (editMeta field value language m))
           = keywords (slotOf language m)) ∧
        (field = FieldKeywords →
         keywords (slotOf language (editMeta field value language m)) = Val (JString value) ∧
         title (slotOf language (editMeta field value language m))
           = title (slotOf language m))) ∧
  (∀ snapshot keys,
     field = FieldCategory ∨ keys = [] →
     translationRequest snapshot keys fileId field value language = None).
Proof.
  intros Hreach Hp fs'. pose proof (reachable_Inv _ Hreach) as HI. split_and!.
  - apply applyEdit_ids.
  - apply applyEdit_statuses.
  - intros f Hf Hne. by apply updateFile_other.
  - intros g Hg Hgid. apply updateFile_status_inv in Hg as (f & Hf & Hid & Hcase); [|done].
    exists f. split_and!; [done | congruence |].
    destruct Hcase as [[_ ->] | [Hne _]]; [done | congruence].
  - apply Inv_idle_files; auto.
    + subst fs'. rewrite applyEdit_ids. apply HI.
    + intros g (f & Hf & Hid & _)%updateFile_status_inv; [|done].
      rewrite Hid. by apply (inv_ids_nonempty _ HI).
    + intros g Hg Hs.
      assert (Processing ∈ FileItem.status <$> files st) as (f & Hfs & Hf)%list_elem_of_fmap.
      { rewrite <- (applyEdit_statuses fileId field value language).
        apply list_elem_of_fmap. eauto. }
      by eapply Inv_idle_not_processing.
  - intros m. destruct field, language; simpl; split_and!; done || by intros _.
  - intros snapshot keys [-> | ->]; [done |].
    unfold translationRequest. destruct field; try done;
      by destruct (List.find _ snapshot).
Qed.

Lemma metadata_edit_is_local_witness :
  (FileItem.status <$> applyEdit "a" FieldTitle "Kite" ENG (files single_finished))
  = [Completed].
Proof.
  destruct (metadata_edit_is_local single_finished "a" FieldTitle "Kite" ENG)
    as (_ & Hs & _).
  - eapply reachable_step; [|by apply (step_completion single_idle 1 1000)].
    apply (run_reachable _ _ _ run_single).
    eapply reachable_step; [apply reachable_single | by apply step_start].
  - reflexivity.
  - exact Hs.
Defined.

Lemma find_by_id (fs : list FileItem.t) f :
  NoDup (FileItem.id <$> fs) → f ∈ fs →
  List.find (λ g, String.eqb (FileItem.id g) (FileItem.id f)) fs = Some f.
Proof.
  intros Hnd Hf.
  destruct (List.find _ fs) as [g|] eqn:Hfind.
  - apply find_some in Hfind as [Hg Heq]. apply String.eqb_eq in Heq.
    f_equal. eapply NoDup_ids_unique; eauto. by apply list_elem_of_In.
  - exfalso. apply list_elem_of_In in Hf.
    pose proof (find_none _ _ Hfind f Hf) as Hc. simpl in Hc.
    by rewrite String.eqb_refl in Hc.
Qed.

(** X16. Saving an edit that changes both the title and the keywords makes
    two calls that read the same snapshot of the item: the first request
    carries the new title with the old keywords, the second the old title
    with the new keywords. The local update ends with both new values, so
    neither request equals the content shown; and the other language slot
    ends as whichever translation arrives last. *)
Theorem double_edit_translates_stale_content (snapshot fs : list FileItem.t)
    (keys : list string) (item : FileItem.t) (language : Language)
    (oldTitle oldKeywords newTitle newKeywords : string)
    (first second : LocalizedContent) :
  NoDup (FileItem.id <$> snapshot) →
  item ∈ snapshot →
  item ∈ fs →
  NoDup (FileItem.id <$> fs) →
  keys ≠ [] →
  slotOf language (FileItem.metadata item) =
    {| title := Val (JString oldTitle); keywords := Val (JString oldKeywords) |} →
  (∃ c, category (FileItem.metadata item) = Val (JString c)) →
  newTitle ≠ oldTitle →
  newKeywords ≠ oldKeywords →
  let fileId := FileItem.id item in
  let calls := saveCalls item language newTitle newKeywords
                 match category (FileItem.metadata item) with
                 | Val (JString c) => c
                 | _ => ""
                 end in
  let shown := {| title := Val (JString newTitle); keywords := Val (JString newKeywords) |} in
  calls = [(FieldTitle, newTitle); (FieldKeywords, newKeywords)] ∧
  saveRequests snapshot keys fileId language calls =
    [{| title := Val (JString newTitle); keywords := Val (JString oldKeywords) |};
     {| title := Val (JString oldTitle); keywords := Val (JString newKeywords) |}] ∧
  (∀ g, g ∈ applySave fileId language calls fs → FileItem.id g = fileId →
        slotOf language (FileItem.metadata g) = shown) ∧
  (shown ∉ saveRequests snapshot keys fileId language calls) ∧
  (∀ g, g ∈ applySync fileId language second
               (applySync fileId language first (applySave fileId language calls fs)) →
        FileItem.id g = fileId →
        otherSlotOf language (FileItem.metadata g) = second ∧
        slotOf language (FileItem.metadata g) = shown).
Proof.
  intros Hnds Hsnap Hfs Hnd Hkeys Hslot [c Hcat] Ht Hk fileId calls shown.
  assert (calls = [(FieldTitle, newTitle); (FieldKeywords, newKeywords)]) as Hcalls.
  { subst calls. unfold saveCalls. rewrite Hslot, Hcat. simpl.
    apply String.eqb_neq in Ht, Hk. rewrite Ht, Hk, String.eqb_refl. done. }
  assert (saveRequests snapshot keys fileId language calls =
            [{| title := Val (JString newTitle); keywords := Val (JString oldKeywords) |};
             {| title := Val (JString oldTitle); keywords := Val (JString newKeywords) |}])
    as Hreq.
  { rewrite Hcalls. unfold saveRequests, translationRequest. simpl.
    subst fileId. rewrite (find_by_id snapshot item Hnds Hsnap).
    destruct keys; [done |]. simpl. by rewrite Hslot. }
  assert (∀ g, g ∈ applySave fileId language calls fs → FileItem.id g = fileId →
               slotOf language (FileItem.metadata g) = shown ∧
               otherSlotOf language (FileItem.metadata g) =
                 otherSlotOf language (FileItem.metadata item)) as Hshown.
  { intros g Hg Hgid. rewrite Hcalls in Hg. unfold applySave in Hg. simpl in Hg.
    apply updateFile_status_inv in Hg as (f1 & Hf1 & Hid1 & Hcase1); [|done].
    apply updateFile_status_inv in Hf1 as (f0 & Hf0 & Hid0 & Hcase0); [|done].
    assert (f0 = item) as ->.
    { eapply NoDup_ids_unique; eauto. subst fileId. congruence. }
    destruct Hcase0 as [[_ ->] | [Hne _]]; [|done].
    destruct Hcase1 as [[_ ->] | [Hne _]]; [|done].
    clear Hreq. destruct language; simpl in *; destruct (FileItem.metadata item) as [e i c0];
      simpl in *; subst; done. }
  split_and!; try done.
  - intros g Hg Hgid. by apply Hshown.
  - rewrite Hreq. subst shown.
    intros [Heq | [Heq | Hin]%elem_of_cons]%elem_of_cons; [congruence | congruence |].
    by apply elem_of_nil in Hin.
  - intros g Hg Hgid.
    apply updateFile_status_inv in Hg as (f2 & Hf2 & Hid2 & Hcase2); [|done].
    apply updateFile_status_inv in Hf2 as (f1 & Hf1 & Hid1 & Hcase1); [|done].
    assert (FileItem.id f1 = fileId) as Hf1id by congruence.
    destruct (Hshown f1 Hf1 Hf1id) as [Hs1 _].
    destruct Hcase1 as [[_ ->] | [Hne _]]; [|done].
    destruct Hcase2 as [[_ ->] | [Hne _]]; [|done].
    simpl. destruct language; simpl in *; done.
Qed.

Lemma double_edit_translates_stale_content_witness :
  saveRequests [item "a"] ["k1"] "a" ENG
    (saveCalls (item "a") ENG "Kite" "bird" "")
  = [{| title := Val (JString "Kite"); keywords := Val (JString "") |};
     {| title := Val (JString ""); keywords := Val (JString "bird") |}].
Proof.
  pose (stale := {| title := Val (JString "Layang"); keywords := Val (JString "") |}).
  destruct (double_edit_translates_stale_content [item "a"] [item "a"] ["k1"]
              (item "a") ENG "" "" "Kite" "bird" stale stale) as (_ & Hreq & _).
  - apply NoDup_singleton.
  - apply list_elem_of_singleton. reflexivity.
  - apply list_elem_of_singleton. reflexivity.
  - apply NoDup_singleton.
  - discriminate.
  - reflexivity.
  - exists "". reflexivity.
  - discriminate.
  - discriminate.
  - exact Hreq.
Defined.

(** ** The display language *)

(** X17. Toggling the language of a card switches what [getLanguage]
    returns for it between ENG and IND, starting from ENG for a card never
    toggled; toggling twice shows the original language again; the
    language of every other card is unchanged. *)
Theorem language_toggle_flips_one_card (fileLanguages : gmap string Language)
    (fileId other : string) :
  getLanguage fileId (handleToggleLanguage fileId fileLanguages)
    = otherLanguage (getLanguage fileId fileLanguages) ∧
  getLanguage fileId
      (handleToggleLanguage fileId (handleToggleLanguage fileId fileLanguages))
    = getLanguage fileId fileLanguages ∧
  getLanguage fileId (handleToggleLanguage fileId ∅) = IND ∧
  (other ≠ fileId →
   getLanguage other (handleToggleLanguage fileId fileLanguages)
     = getLanguage other fileLanguages).
Proof.
  unfold getLanguage, handleToggleLanguage. split_and!.
  - rewrite lookup_insert_eq. by destruct (fileLanguages !! fileId) as [[]|].
  - rewrite !lookup_insert_eq. by destruct (fileLanguages !! fileId) as [[]|].
  - by rewrite lookup_insert_eq.
  - intros Hne. by rewrite lookup_insert_ne.
Qed.

(** ** Helpers *)

(** X18. The category shown for a generated item is always a string: the
    label of an entry of the table whose identifier is the stored category,
    or, when the table has no entry 8, the fallback identifier 8 itself. *)
Theorem generated_category_has_a_label (cats : list Category)
    (parse : string → option JSON) (text thumb : option string)
    (r : GenerationResult) (lang : Language) :
  resultOfResponse cats parse text thumb = Some r →
  let shown := getCategoryName cats (category (res_metadata r)) lang in
  isString shown = true ∧
  ((∃ c, c ∈ cats ∧ category (res_metadata r) = Val (JString (cat_id c)) ∧
         shown = Val (JString match lang with ENG => cat_en c | IND => cat_id_lang c end)) ∨
   ((∀ c, c ∈ cats → cat_id c ≠ "8") ∧ shown = Val (JString "8"))).
Proof.
  intros (jsonText & parsed & cat & _ & _ & _ & Hcat & Hm & _)%resultOfResponse_Some shown.
  unfold metadataOfParsed in Hm. rewrite Hcat in Hm. injection Hm as Hm.
  assert (category (res_metadata r) = validCategory cats cat) as Hc by (by rewrite <- Hm).
  subst shown. rewrite Hc. clear Hm Hc Hcat.
  unfold getCategoryName.
  destruct (List.find _ cats) as [c|] eqn:Hfind.
  - split; [done |]. left. apply find_some in Hfind as [Hin Heq].
    exists c. split_and!; [by apply list_elem_of_In | | done].
    unfold strictEqString in Heq.
    destruct (validCategory cats cat) as [|[]]; try discriminate.
    apply String.eqb_eq in Heq. by subst.
  - assert (¬ knownCategory cats (validCategory cats cat)) as Hunknown.
    { intros (c & Hin & Heq). apply list_elem_of_In in Hin.
      pose proof (find_none _ _ Hfind c Hin) as Hno. simpl in Hno.
      rewrite Heq in Hno. simpl in Hno. by rewrite String.eqb_refl in Hno. }
    assert (validCategory cats cat = Val (JString "8")) as H8.
    { destruct (classic_known cats cat) as [Hk | Hk].
      - exfalso. apply Hunknown. by rewrite (proj1 (validCategory_spec cats cat) Hk).
      - by apply validCategory_spec. }
    rewrite H8 in *. split; [done |]. right. split; [|done].
    intros c Hin Heq. apply Hunknown. exists c. split; [done |]. by rewrite Heq.
Qed.

Lemma generated_category_has_a_label_witness :
  isString (getCategoryName categories
              (category (res_metadata
                 {| res_metadata :=
                      {| en := {| title := Val (JString ""); keywords := Val (JString "") |};
                         ind := {| title := Val (JString ""); keywords := Val (JString "") |};
                         category := Val (JString "8") |};
                    res_thumbnail := None |})) ENG) = true.
Proof.
  apply (generated_category_has_a_label categories
           (λ _, Some (JObject [])) (Some "{}") None _ ENG).
  reflexivity.
Defined.

Section CsvFacts.

Import KeyPanel.

Lemma length_app_str s t :
  String.length (s +:+ t) = (String.length s + String.length t)%nat.
Proof. induction s as [|a s IH]; [done |]. rewrite app_cons. simpl. by rewrite IH. Qed.

Lemma app_inj_tail_str s t u : s +:+ u = t +:+ u → s = t.
Proof.
  revert t. induction s as [|a s IH]; intros [|b t] H.
  - done.
  - exfalso. apply (f_equal String.length) in H.
    rewrite app_cons, app_nil_l_str in H. simpl in H. rewrite length_app_str in H. lia.
  - exfalso. apply (f_equal String.length) in H.
    rewrite app_cons, app_nil_l_str in H. simpl in H. rewrite length_app_str in H. lia.
  - rewrite !app_cons in H. injection H as -> H. f_equal. by apply IH.
Qed.


End CsvFacts.

Lemma escapeQuotes_inj s t : escapeQuotes s = escapeQuotes t → s = t.
Proof.
  revert t. induction s as [|a s IH]; intros [|b t]; simpl.
  - done.
  - by destruct (Ascii.eqb b quoteChar).
  - by destruct (Ascii.eqb a quoteChar).
  - destruct (Ascii.eqb a quoteChar) eqn:Ha, (Ascii.eqb b quoteChar) eqn:Hb.
    + apply Ascii.eqb_eq in Ha, Hb. subst. intros [= H]. f_equal. by apply IH.
    + intros [= <- H]. destruct t as [|c t]; simpl in H; [done |].
      exfalso. destruct s as [|d s]; simpl in H.
      * by destruct (Ascii.eqb c quoteChar).
      * by rewrite Ascii.eqb_refl in Hb.
    + intros [= -> H]. by rewrite Ascii.eqb_refl in Ha.
    + intros [= -> H]. f_equal. by apply IH.
Qed.

Lemma countQuotes_app s t : countQuotes (s +:+ t) = (countQuotes s + countQuotes t)%nat.
Proof.
  induction s as [|a s IH]; [done |]. rewrite app_cons. simpl. rewrite IH. lia.
Qed.

Lemma countQuotes_escape s : countQuotes (escapeQuotes s) = (2 * countQuotes s)%nat.
Proof.
  induction s as [|a s IH]; [done |]. simpl.
  destruct (Ascii.eqb a quoteChar) eqn:Ha; simpl; rewrite ?Ha, IH; simpl; lia.
Qed.

(** X20. A row's quoted cell exists exactly for string values (any other
    value makes the export throw). It starts and ends with a quote
    character, holds an even number of them, and different strings give
    different cells. *)
Theorem csv_cell_is_balanced_and_injective (v w : JsValue) :
  (isString v = true ↔ ∃ cell, csvField v = Some cell) ∧
  (∀ cell, csvField v = Some cell →
     (∃ body, cell = String quoteChar (body +:+ String quoteChar "")) ∧
     Nat.Even (countQuotes cell) ∧
     (csvField w = Some cell → v = w)).
Proof.
  split.
  - destruct v as [|[]]; simpl; split; try done; try (by intros [? ?]); eauto.
  - intros cell Hcell. destruct v as [|[| | |s| |]]; try discriminate.
    simpl in Hcell. injection Hcell as <-. split_and!.
    + eauto.
    + simpl. rewrite countQuotes_app, countQuotes_escape. simpl.
      exists (S (countQuotes s)). lia.
    + destruct w as [|[| | |t| |]]; try discriminate. simpl. intros [= H].
      apply app_inj_tail_str, escapeQuotes_inj in H. by subst.
Qed.

(** ** The counters of the page *)

Lemma countStatus_cons s f fs :
  countStatus s (f :: fs) = ((if hasStatus s f then 1 else 0) + countStatus s fs)%nat.
Proof. unfold countStatus. simpl. by destruct (hasStatus s f). Qed.

Lemma targets_counted fs :
  length (List.filter isTarget fs) = (countStatus Pending fs + countStatus Failed fs)%nat.
Proof.
  induction fs as [|f fs IH]; [done |]. rewrite !countStatus_cons.
  cbn [List.filter]. unfold isTarget at 1. unfold hasStatus.
  destruct (FileItem.status f); cbn [length]; rewrite IH; lia.
Qed.

Lemma resetFailed_counts fs :
  countStatus Failed (resetFailed <$> fs) = 0%nat ∧
  countStatus Pending (resetFailed <$> fs)
    = (countStatus Pending fs + countStatus Failed fs)%nat ∧
  countStatus Completed (resetFailed <$> fs) = countStatus Completed fs ∧
  countStatus Processing (resetFailed <$> fs) = countStatus Processing fs.
Proof.
  induction fs as [|f fs (IH1 & IH2 & IH3 & IH4)]; [done |].
  rewrite fmap_cons, !countStatus_cons, IH1, IH2, IH3, IH4.
  unfold resetFailed, hasStatus. destruct (FileItem.status f) eqn:Hs; simpl; rewrite ?Hs; lia.
Qed.

(** X21. The generate button is enabled exactly when a run would have
    work: pressed while enabled and with a key configured, [startProcessing]
    starts a run whose queue holds as many identifiers as there were pending
    and failed items, every failed item becomes pending and the completed
    ones are left alone; invoked while idle and not enabled it changes
    nothing. *)
Theorem generate_starts_exactly_when_enabled (st : Sched) :
  apiKeys st ≠ [] →
  (canGenerate (processingRef st) (files st) = true →
   let st' := startProcessing st in
   processingRef st' = true ∧
   length (queueRef st')
     = (countStatus Pending (files st) + countStatus Failed (files st))%nat ∧
   countStatus Failed (files st') = 0%nat ∧
   countStatus Pending (files st')
     = (countStatus Pending (files st) + countStatus Failed (files st))%nat ∧
   countStatus Completed (files st') = countStatus Completed (files st) ∧
   FileItem.id <$> files st' = FileItem.id <$> files st) ∧
  (processingRef st = false → canGenerate false (files st) = false →
   startProcessing st = st).
Proof.
  intros Hkeys. split.
  - intros Hcan st'. unfold canGenerate in Hcan.
    apply andb_true_iff in Hcan as [_ Hwork].
    assert (List.filter isTarget (files st) ≠ []) as Hne.
    { intros Hnil. apply (f_equal length) in Hnil. rewrite targets_counted in Hnil.
      simpl in Hnil. apply orb_true_iff in Hwork as [H | H]; apply Nat.ltb_lt in H; lia. }
    destruct (startProcessing_cases st) as [[_ [? | ?]] | (_ & _ & Heq)]; [done | done |].
    subst st'. rewrite Heq.
    destruct (resetFailed_counts (files st)) as (H1 & H2 & H3 & _).
    split_and!; try done.
    + cbn. by rewrite length_fmap, targets_counted.
    + cbn. rewrite <- list_fmap_compose. apply list_fmap_ext. intros ? f _. simpl.
      unfold resetFailed. by destruct (FileItem.status f).
  - intros _ Hcan. unfold canGenerate in Hcan. simpl in Hcan.
    apply orb_false_iff in Hcan as [Hp Hf]. apply Nat.ltb_ge in Hp, Hf.
    destruct (startProcessing_cases st) as [[Heq _] | (_ & Hne & _)]; [done |].
    exfalso. apply Hne. apply length_zero_iff_nil. rewrite targets_counted. lia.
Qed.

Lemma generate_starts_exactly_when_enabled_witness :
  length (queueRef (startProcessing loaded)) = 2%nat.
Proof.
  assert (apiKeys loaded ≠ []) as Hk by (vm_compute; discriminate).
  destruct (generate_starts_exactly_when_enabled loaded Hk) as [Hstart _].
  destruct Hstart as (_ & Hq & _); [vm_compute; reflexivity |].
  rewrite Hq. vm_compute. reflexivity.
Defined.

(** ** Deleting an item *)

Lemma filter_other_ids fileId (fs : list FileItem.t) :
  fileId ∉ FileItem.id <$> fs →
  List.filter (λ g, negb (String.eqb (FileItem.id g) fileId)) fs = fs.
Proof.
  induction fs as [|g fs IH]; [done |]. rewrite fmap_cons, not_elem_of_cons.
  intros [Hne Hnot]. simpl.
  destruct (String.eqb_spec (FileItem.id g) fileId) as [Heq | _]; [congruence |].
  simpl. by rewrite IH.
Qed.

Lemma filter_delete_length (fs : list FileItem.t) f :
  NoDup (FileItem.id <$> fs) → f ∈ fs →
  (length (List.filter (λ g, negb (String.eqb (FileItem.id g) (FileItem.id f))) fs) + 1
   = length fs)%nat.
Proof.
  induction fs as [|g fs IH]; [by intros _ ?%elem_of_nil |].
  rewrite fmap_cons, NoDup_cons. intros [Hnotin Hnd] Hin. simpl.
  destruct (String.eqb_spec (FileItem.id g) (FileItem.id f)) as [Heq | Hne]; simpl.
  - rewrite filter_other_ids; [lia | congruence].
  - apply elem_of_cons in Hin as [-> | Hin]; [done |]. rewrite <- (IH Hnd Hin). lia.
Qed.

(** X22. In every state the page reaches, deleting a listed item removes
    that item and nothing else: the list gets shorter by exactly one, every
    other item stays, and the queue and the pending continuations are
    untouched. Deleting an identifier that is not listed changes nothing. *)
Theorem delete_removes_exactly_one_item (st : Sched) (f : FileItem.t) (missing : string) :
  reachable st →
  f ∈ files st →
  missing ∉ FileItem.id <$> files st →
  let st' := handleDelete (FileItem.id f) st in
  (f ∉ files st') ∧
  (length (files st') + 1 = length (files st))%nat ∧
  (∀ g, g ∈ files st → g ≠ f → g ∈ files st') ∧
  (∀ g, g ∈ files st' → g ∈ files st) ∧
  queueRef st' = queueRef st ∧ tasks st' = tasks st ∧
  handleDelete missing st = st.
Proof.
  intros Hreach Hf Hmissing st'. pose proof (reachable_Inv _ Hreach) as HI.
  pose proof (inv_ids_nodup _ HI) as Hnd.
  subst st'. unfold handleDelete. cbn [files set_files queueRef tasks].
  split_and!; try done.
  - rewrite list_elem_of_In, filter_In. intros [_ Hneq].
    by rewrite String.eqb_refl in Hneq.
  - by apply filter_delete_length.
  - intros g Hg Hne. rewrite list_elem_of_In, filter_In, <- list_elem_of_In.
    split; [done |]. apply negb_true_iff, String.eqb_neq. intros Heq.
    apply Hne. eapply NoDup_ids_unique; eauto.
  - intros g. rewrite list_elem_of_In, filter_In, <- list_elem_of_In. by intros [? _].
  - rewrite filter_other_ids; [|done]. by destruct st.
Qed.

Lemma delete_removes_exactly_one_item_witness :
  length (files (handleDelete "a" loaded)) = 1%nat.
Proof.
  destruct (delete_removes_exactly_one_item loaded (item "a") "zz") as (_ & Hlen & _).
  - apply reachable_loaded.
  - vm_compute. apply list_elem_of_here.
  - vm_compute. intros [H | [H | H]%elem_of_cons]%elem_of_cons;
      [discriminate | discriminate | by apply elem_of_nil in H].
  - vm_compute in Hlen |- *. lia.
Defined.

(** ** Progress of a run *)








(** ** Busy credentials *)

Lemma activeKeys_checkCompletion st :
  activeKeysRef (checkCompletion st) = activeKeysRef st.
Proof. by destruct (checkCompletion_cases st) as [[_ ->] | [_ ->]]. Qed.

Lemma NoLeak_step ev st st' : Inv st → NoLeak st → step ev st st' → NoLeak st'.
Proof.
  intros HI HN Hstep. unfold NoLeak, inFlightKeys in *. destruct Hstep.
  - destruct (startProcessing_cases st) as [[-> _] | (_ & _ & ->)]; [done |].
    cbn -[inFlight]. intros key Hkey. set_solver.
  - assert (inFlight (delete i (tasks st)) = inFlight (tasks st)) as Hdel
      by (by eapply inFlight_delete_other).
    destruct (spawnWorker_cases workerId now (take_task i st))
      as [[_ ->] | [(_ & _ & ->) | [(_ & rest & _ & ->) | [Hc | Hc]]]].
    + cbn -[inFlight]. by rewrite Hdel.
    + rewrite activeKeys_checkCompletion, inFlight_checkCompletion. cbn -[inFlight]. by rewrite Hdel.
    + rewrite activeKeys_checkCompletion, inFlight_checkCompletion. cbn -[inFlight]. by rewrite Hdel.
    + destruct Hc as (_ & f & rest & next & _ & _ & _ & ->). cbn -[inFlight].
      rewrite inFlight_snoc_other, Hdel; done.
    + destruct Hc as (_ & f & rest & k & next & _ & _ & _ & _ & ->). cbn -[inFlight].
      rewrite inFlight_snoc_await, Hdel, fmap_app. intros key Hkey.
      apply elem_of_app. apply elem_of_union in Hkey as [->%elem_of_singleton | Hkey].
      * right. by apply list_elem_of_singleton.
      * left. by apply HN.
  - destruct (resumeWorker_frame workerId fileId key o now (take_task i st))
      as (_ & _ & _ & -> & _ & ->). cbn -[inFlight].
    rewrite inFlight_snoc_other by done.
    intros key' [Hkey Hne%not_elem_of_singleton]%elem_of_difference.
    apply HN in Hkey. apply list_elem_of_fmap in Hkey as ([f k] & -> & Hin).
    apply list_elem_of_fmap. exists (f, k). split; [done |].
    rewrite (inFlight_delete_await _ _ _ _ _ H) in Hin.
    apply elem_of_cons in Hin as [[= -> ->] | Hin]; done.
  - assert (inFlight (delete i (tasks st)) = inFlight (tasks st)) as Hdel
      by (by eapply inFlight_delete_other).
    unfold completionCallback. destruct (_ && _); cbn -[inFlight]; by rewrite Hdel.
  - done.
  - done.
  - done.
  - done.
  - done.
Qed.

Lemma reachable_NoLeak st : reachable st → NoLeak st.
Proof.
  induction 1 as [|ev st st' Hr IH Hstep]; [intros key Hkey; set_solver |].
  eapply NoLeak_step; eauto. by apply reachable_Inv.
Qed.

(** X24. No credential leaks: in every state the page reaches, the
    credentials marked busy are exactly those held by the workers in flight,
    and their number is the in-flight counter; between runs no credential
    is marked busy. *)
Theorem busy_credentials_are_exactly_held (st : Sched) :
  reachable st →
  (∀ key, key ∈ activeKeysRef st ↔ key ∈ inFlightKeys st) ∧
  Z.of_nat (size (activeKeysRef st)) = activeWorkersRef st ∧
  (processingRef st = false → activeKeysRef st = ∅).
Proof.
  intros Hreach. pose proof (reachable_Inv _ Hreach) as HI.
  pose proof (reachable_NoLeak _ Hreach) as HN.
  assert (∀ key, key ∈ activeKeysRef st ↔ key ∈ inFlightKeys st) as Hiff.
  { intros key. split; [apply HN | apply (inv_keys_busy _ HI)]. }
  assert (activeKeysRef st = list_to_set (inFlightKeys st)) as Heq.
  { apply set_eq. intros key. by rewrite elem_of_list_to_set. }
  split_and!; [done | |].
  - rewrite Heq, size_list_to_set by apply HI.
    rewrite (inv_counter _ HI). unfold inFlightKeys. by rewrite length_fmap.
  - intros Hp. destruct (inv_idle _ HI Hp) as [_ Hnil].
    rewrite Heq. unfold inFlightKeys. by rewrite Hnil.
Qed.

Lemma busy_credentials_are_exactly_held_witness :
  Z.of_nat (size (activeKeysRef taken)) = activeWorkersRef taken.
Proof.
  apply (busy_credentials_are_exactly_held taken). apply reachable_taken.
Defined.

(** ** The upload filter *)

Lemma image_type_is_not_video ty :
  JsString.startsWith "image/" ty = true → JsString.startsWith "video/" ty = false.
Proof.
  destruct ty as [|c ty]; [done |]. cbn [JsString.startsWith].
  destruct (Ascii.eqb_spec "i"%char c) as [<- | _]; [intros _; reflexivity | done].
Qed.

(** X25. What the upload filter lets through: every file accepted with
    Image selected is accepted with Vector selected; no file is accepted
    both as Image and as Video; and a file accepted as Video is accepted
    as Vector only through its name ending in [.eps] or [.ai]. *)
Theorem upload_filter_modes (fileList : list UploadedFile) (file : UploadedFile) :
  file ∈ acceptedFiles Image fileList →
  file ∈ acceptedFiles Vector fileList ∧
  (file ∉ acceptedFiles Video fileList) ∧
  (∀ other, other ∈ acceptedFiles Video fileList →
            other ∈ acceptedFiles Vector fileList →
            endsWith (file_name other) ".eps" = true ∨
            endsWith (file_name other) ".ai" = true).
Proof.
  unfold acceptedFiles. rewrite !list_elem_of_In, !filter_In. intros [Hin Himg].
  unfold acceptsFile in *. split; [|split].
  - split; [done |]. by rewrite Himg.
  - intros [_ Hvid]. apply image_type_is_not_video in Himg. congruence.
  - intros other. rewrite !list_elem_of_In, !filter_In. intros [_ Hvid] [_ Hvec].
    destruct (JsString.startsWith "image/" (file_type other)) eqn:Hi.
    { apply image_type_is_not_video in Hi. congruence. }
    destruct (String.eqb_spec (file_type other) "application/pdf") as [Heq | _].
    { rewrite Heq in Hvid. discriminate. }
    rewrite orb_false_r in Hvec. cbn [orb] in Hvec.
    by apply orb_true_iff in Hvec.
Qed.

Lemma upload_filter_modes_witness :
  {| file_name := "kite.png"; file_type := "image/png" |}
    ∈ acceptedFiles Vector [{| file_name := "kite.png"; file_type := "image/png" |}].
Proof.
  apply (upload_filter_modes [{| file_name := "kite.png"; file_type := "image/png" |}]
           {| file_name := "kite.png"; file_type := "image/png" |}).
  vm_compute. apply list_elem_of_here.
Defined.
